(** * Verification of the web workbench bootstrap of asutosh97/vscode

    Shallow embedding of
    - [LocalStorageCredentialsProvider] and [PollingURLCallbackProvider]
      (the browser bootstrap, src/unnamed/part_000),
    - [TrustedDomainsContentProvider.readFile] / [writeFile]
      (vs/workbench/contrib/url/common/trustedDomainsFileSystemProvider.ts),
    - [getConfirmMessage] (vs/platform/dialogs/common/dialogs.ts).

    JavaScript strings are modelled as [string] (a sequence of bytes, read as
    the UTF-8 encoding of the text), millisecond time stamps as [Z], arrays as
    lists, and an insertion-ordered [Map] as an association list. *)

From Stdlib Require Import ZArith Ascii String List Lia.
From stdpp Require Import base option list strings pretty gmap.

Open Scope string_scope.
Open Scope list_scope.
Open Scope nat_scope.

(* stdpp freezes [append]; the string functions below are proved by
   unfolding it on a leading constructor. *)
Arguments String.append !_ _ : simpl nomatch.

(** ** LocalStorageCredentialsProvider *)

Module Credentials.

Record ICredential := mkCredential {
  service : string;
  account : string;
  password : string
}.

#[global] Instance ICredential_eq_dec : EqDecision ICredential.
Proof. solve_decision. Defined.

Definition CREDENTIALS_OPENED_KEY : string := "credentials.provider".

(** The provider object: the private field [_credentials] ([None] while it
    is still [undefined]) together with [window.localStorage]. *)
Record provider := mkProvider {
  _credentials : option (list ICredential);
  localStorage : gmap string string
}.

(** [credential.service === service && credential.account === account] *)
Definition same_pair (service' account' : string) (c : ICredential) : Prop :=
  service c = service' ∧ account c = account'.

#[global] Instance same_pair_dec s a c : Decision (same_pair s a c).
Proof. unfold same_pair. apply _. Defined.

Section Provider.

(** [JSON.parse] at the type the getter assigns it to: [None] when the
    call throws or the parsed value is not an array (both leave
    [Array.isArray(this._credentials)] false). *)
Variable JSON_parse : string → option (list ICredential).
Variable JSON_stringify : list ICredential → string.

(** [private get credentials()] : the value returned and the provider
    after the lazy load. *)
Definition credentials (p : provider) : list ICredential * provider :=
  match _credentials p with
  | Some cs => (cs, p)
  | None =>
      let parsed :=
        match localStorage p !! CREDENTIALS_OPENED_KEY with
        | Some serializedCredentials =>
            if decide (serializedCredentials = "") then None
            else JSON_parse serializedCredentials
        | None => None
        end in
      let cs := default [] parsed in
      (cs, mkProvider (Some cs) (localStorage p))
  end.

Definition save (p : provider) : provider :=
  let '(cs, p1) := credentials p in
  mkProvider (_credentials p1)
    (<[CREDENTIALS_OPENED_KEY := JSON_stringify cs]> (localStorage p1)).

(** The [for ... of] loop of [doGetPassword]. *)
Fixpoint doGetPassword_loop (service' : string) (account' : option string)
    (cs : list ICredential) : option string :=
  match cs with
  | [] => None
  | credential :: rest =>
      if decide (service credential = service') then
        match account' with
        | None => Some (password credential)
        | Some a =>
            if decide (a = account credential)
            then Some (password credential)
            else doGetPassword_loop service' account' rest
        end
      else doGetPassword_loop service' account' rest
  end.

Definition doGetPassword (service' : string) (account' : option string)
    (p : provider) : option string * provider :=
  let '(cs, p1) := credentials p in
  (doGetPassword_loop service' account' cs, p1).

Definition getPassword (service' account' : string) (p : provider)
    : option string * provider :=
  doGetPassword service' (Some account') p.

Definition findPassword (service' : string) (p : provider)
    : option string * provider :=
  doGetPassword service' None p.

(** [found] is what the [filter] callback leaves in the flag: whether it met
    a credential of the pair. *)
Definition deletePassword (service' account' : string) (p : provider)
    : bool * provider :=
  let '(cs, p1) := credentials p in
  let found := bool_decide (Exists (same_pair service' account') cs) in
  let p2 :=
    mkProvider
      (Some (filter (λ c, ¬ same_pair service' account' c) cs))
      (localStorage p1) in
  (found, if found then save p2 else p2).

(** [deletePassword] is called without [await]; its body has no [await]
    of its own, so it has run to its end when the call returns.  [push]
    extends the array [_credentials] refers to. *)
Definition setPassword (service' account' password' : string)
    (p : provider) : provider :=
  let '(_, p1) := deletePassword service' account' p in
  let '(cs, p2) := credentials p1 in
  save (mkProvider
          (Some (cs ++ [mkCredential service' account' password']))
          (localStorage p2)).

(** [findCredentials]: the accounts and passwords stored for a service, in
    the order of the array. *)
Definition findCredentials (service' : string) (p : provider)
    : list (string * string) * provider :=
  let '(cs, p1) := credentials p in
  ((λ c, (account c, password c)) <$> filter (λ c, service c = service') cs,
   p1).

(** A page load: a new provider object over the same [localStorage]. *)
Definition reload (p : provider) : provider :=
  mkProvider None (localStorage p).

(** At most one credential is stored per (service, account) pair. *)
Definition unique_pairs (cs : list ICredential) : Prop :=
  ∀ s a, List.length (filter (same_pair s a) cs) ≤ 1.

(** *** Properties *)

Lemma credentials_loaded p :
  _credentials (credentials p).2 = Some (credentials p).1.
Proof. unfold credentials. destruct (_credentials p) eqn:E; simpl; auto. Qed.

Lemma credentials_idem p :
  credentials (credentials p).2 = credentials p.
Proof.
  unfold credentials at 1. rewrite credentials_loaded.
  by destruct (credentials p).
Qed.

Lemma credentials_of_Some cs ls :
  credentials (mkProvider (Some cs) ls) = (cs, mkProvider (Some cs) ls).
Proof. reflexivity. Qed.

Lemma save_credentials p :
  (credentials (save p)).1 = (credentials p).1.
Proof.
  unfold save. pose proof (credentials_loaded p) as H.
  destruct (credentials p) as [cs p1]. simpl in *.
  unfold credentials. simpl. by rewrite H.
Qed.

Lemma save_stored p :
  localStorage (save p) !! CREDENTIALS_OPENED_KEY
    = Some (JSON_stringify (credentials p).1).
Proof.
  unfold save. destruct (credentials p) as [cs p1]. simpl.
  apply lookup_insert_eq.
Qed.

Lemma deletePassword_credentials s a p :
  (credentials (deletePassword s a p).2).1
    = filter (λ c, ¬ same_pair s a c) (credentials p).1.
Proof.
  unfold deletePassword. destruct (credentials p) as [cs p1]. simpl.
  case_bool_decide; [by rewrite save_credentials|done].
Qed.

Lemma setPassword_credentials s a pw p :
  (credentials (setPassword s a pw p)).1
    = filter (λ c, ¬ same_pair s a c) (credentials p).1
        ++ [mkCredential s a pw].
Proof.
  unfold setPassword.
  pose proof (deletePassword_credentials s a p) as Hd.
  destruct (deletePassword s a p) as [found p1]. simpl in Hd.
  destruct (credentials p1) as [cs p2]. simpl in Hd. subst cs.
  by rewrite save_credentials.
Qed.

Lemma doGetPassword_loop_app_miss s a cs cs' :
  Forall (λ c, ¬ same_pair s a c) cs →
  doGetPassword_loop s (Some a) (cs ++ cs')
    = doGetPassword_loop s (Some a) cs'.
Proof.
  induction 1 as [|c cs Hc _ IH]; [done|]. simpl.
  unfold same_pair in Hc.
  repeat case_decide; try done. subst. naive_solver.
Qed.

Lemma filter_same_pair_other s a s' a' (cs : list ICredential) :
  (s', a') ≠ (s, a) →
  filter (same_pair s' a') (filter (λ c, ¬ same_pair s a c) cs)
    = filter (same_pair s' a') cs.
Proof.
  intros Hne. induction cs as [|c cs IH]; [done|].
  rewrite (filter_cons (λ c, ¬ same_pair s a c)).
  destruct (decide (¬ same_pair s a c)) as [Hc|Hc].
  - rewrite !filter_cons, IH. done.
  - rewrite filter_cons, IH.
    destruct (decide (same_pair s' a' c)) as [[<- <-]|]; [|done].
    exfalso. apply Hc. intros [<- <-]. by apply Hne.
Qed.

Lemma filter_same_pair_removed s a (cs : list ICredential) :
  filter (same_pair s a) (filter (λ c, ¬ same_pair s a c) cs) = [].
Proof.
  induction cs as [|c cs IH]; [done|].
  rewrite filter_cons. case_decide; [|done].
  rewrite filter_cons. by case_decide.
Qed.

Lemma setPassword_unique_pairs s a pw p :
  unique_pairs (credentials p).1 →
  unique_pairs (credentials (setPassword s a pw p)).1.
Proof.
  intros Hu s' a'. rewrite setPassword_credentials, filter_app, length_app.
  destruct (decide ((s', a') = (s, a))) as [[= -> ->]|Hne].
  - rewrite filter_same_pair_removed. simpl.
    rewrite filter_cons. case_decide; simpl; lia.
  - rewrite filter_same_pair_other by done.
    rewrite filter_cons, filter_nil. unfold same_pair at 2. simpl.
    case_decide as Hc; [destruct Hc; congruence|].
    specialize (Hu s' a'). simpl. lia.
Qed.

Lemma deletePassword_unique_pairs s a p :
  unique_pairs (credentials p).1 →
  unique_pairs (credentials (deletePassword s a p).2).1.
Proof.
  intros Hu s' a'. rewrite deletePassword_credentials.
  destruct (decide ((s', a') = (s, a))) as [[= -> ->]|Hne].
  - rewrite filter_same_pair_removed. simpl. lia.
  - rewrite filter_same_pair_other by done. apply Hu.
Qed.

(** C10: after [setPassword] the pair reads back its password, exactly
    one credential is stored for the pair (and the array is what
    [localStorage] holds); [deletePassword] answers [true] exactly when
    a credential of that very pair was stored, and both operations
    leave the credentials of every other pair as they were. *)
Theorem setPassword_getPassword_deletePassword s a pw p :
  let p' := setPassword s a pw p in
  (getPassword s a p').1 = Some pw
  ∧ filter (same_pair s a) (credentials p').1 = [mkCredential s a pw]
  ∧ localStorage p' !! CREDENTIALS_OPENED_KEY
      = Some (JSON_stringify (credentials p').1)
  ∧ (∀ s' a', (s', a') ≠ (s, a) →
       filter (same_pair s' a') (credentials p').1
         = filter (same_pair s' a') (credentials p).1)
  ∧ ((deletePassword s a p).1 = true
       ↔ ∃ c, c ∈ (credentials p).1 ∧ service c = s ∧ account c = a)
  ∧ (credentials (deletePassword s a p).2).1
      = filter (λ c, ¬ same_pair s a c) (credentials p).1
  ∧ (∀ s' a', (s', a') ≠ (s, a) →
       filter (same_pair s' a') (credentials (deletePassword s a p).2).1
         = filter (same_pair s' a') (credentials p).1).
Proof.
  cbv zeta. repeat split.
  - unfold getPassword, doGetPassword.
    pose proof (setPassword_credentials s a pw p) as Hc.
    destruct (credentials (setPassword s a pw p)) as [cs p1].
    simpl in *. subst cs.
    rewrite doGetPassword_loop_app_miss
      by (apply list.Forall_forall; intros c Hc; by apply list_elem_of_filter in Hc as [? _]).
    simpl. by repeat case_decide.
  - rewrite setPassword_credentials, filter_app, filter_same_pair_removed.
    simpl. rewrite filter_cons. by case_decide as Hc; [|destruct Hc].
  - unfold setPassword.
    destruct (deletePassword s a p) as [found p1].
    destruct (credentials p1) as [cs p2].
    rewrite save_stored, save_credentials. done.
  - intros s' a' Hne.
    rewrite setPassword_credentials, filter_app, filter_same_pair_other by done.
    rewrite filter_cons, filter_nil. unfold same_pair at 2. simpl.
    case_decide as Hc; [destruct Hc; congruence|]. by rewrite app_nil_r.
  - unfold deletePassword. destruct (credentials p) as [cs p1]. simpl.
    intros H%bool_decide_eq_true. apply list.Exists_exists in H.
    destruct H as (c & Hin & Hs & Ha). eauto.
  - unfold deletePassword. destruct (credentials p) as [cs p1]. simpl.
    intros (c & Hin & Hs & Ha). apply bool_decide_eq_true.
    apply list.Exists_exists. exists c. by repeat split.
  - apply deletePassword_credentials.
  - intros s' a' Hne. rewrite deletePassword_credentials.
    by apply filter_same_pair_other.
Qed.

(** *** Reading, deleting and reloading *)

Lemma credentials_localStorage p :
  localStorage (credentials p).2 = localStorage p.
Proof. unfold credentials. by destruct (_credentials p). Qed.

Lemma doGetPassword_loop_head s a cs :
  doGetPassword_loop s (Some a) cs
  = password <$> head (filter (same_pair s a) cs).
Proof.
  induction cs as [|c cs IH]; [done|]. simpl. rewrite filter_cons.
  destruct (decide (service c = s)) as [Hs|Hs].
  - destruct (decide (a = account c)) as [Ha|Ha].
    + by rewrite decide_True by done.
    + rewrite decide_False by (intros [_ ?]; congruence). done.
  - rewrite decide_False by (by intros [? _]). done.
Qed.

Lemma doGetPassword_loop_service s cs :
  doGetPassword_loop s None cs
  = password <$> head (filter (λ c, service c = s) cs).
Proof.
  induction cs as [|c cs IH]; [done|]. simpl. rewrite filter_cons.
  by repeat case_decide.
Qed.

Lemma filter_not_pair_idem s a (cs : list ICredential) :
  filter (λ c, ¬ same_pair s a c) (filter (λ c, ¬ same_pair s a c) cs)
  = filter (λ c, ¬ same_pair s a c) cs.
Proof.
  induction cs as [|c cs IH]; [done|]. rewrite filter_cons.
  case_decide; [|done]. rewrite filter_cons, decide_True by done.
  by rewrite IH.
Qed.

Lemma filter_service_not_pair s a (cs : list ICredential) :
  (λ c, (account c, password c)) <$>
    filter (λ c, service c = s) (filter (λ c, ¬ same_pair s a c) cs)
  = filter (λ ap, ap.1 ≠ a)
      ((λ c, (account c, password c)) <$> filter (λ c, service c = s) cs).
Proof.
  induction cs as [|c cs IH]; [done|].
  rewrite (filter_cons (λ c, ¬ same_pair s a c)), (filter_cons (λ c, service c = s) c).
  destruct (decide (service c = s)) as [Hs|Hs].
  - rewrite fmap_cons, (filter_cons (λ ap, ap.1 ≠ a)). cbn [fst].
    destruct (decide (account c = a)) as [Ha|Ha].
    + rewrite decide_False by (intros Hn; by apply Hn).
      by rewrite decide_False by (intros Hn; by apply Hn).
    + rewrite decide_True by (by intros [_ ?]).
      rewrite filter_cons, decide_True by done.
      rewrite decide_True by done. by rewrite fmap_cons, IH.
  - destruct (decide (¬ same_pair s a c)); [|done].
    by rewrite filter_cons, decide_False by done.
Qed.

Lemma filter_service_other_pair s s' a (cs : list ICredential) :
  s' ≠ s →
  filter (λ c, service c = s) (filter (λ c, ¬ same_pair s' a c) cs)
  = filter (λ c, service c = s) cs.
Proof.
  intros Hne. induction cs as [|c cs IH]; [done|].
  rewrite (filter_cons (λ c, ¬ same_pair s' a c)), (filter_cons (λ c, service c = s) c).
  destruct (decide (service c = s)) as [Hs|Hs].
  - rewrite decide_True by (intros [? _]; congruence).
    by rewrite filter_cons, decide_True, IH by done.
  - destruct (decide (¬ same_pair s' a c)); [|done].
    by rewrite filter_cons, decide_False by done.
Qed.

Lemma deletePassword_found s a p :
  (deletePassword s a p).1
  = bool_decide (Exists (same_pair s a) (credentials p).1).
Proof. unfold deletePassword. by destruct (credentials p). Qed.

Lemma save_reload p :
  JSON_stringify (credentials p).1 ≠ "" →
  JSON_parse (JSON_stringify (credentials p).1) = Some (credentials p).1 →
  (credentials (reload (save p))).1 = (credentials p).1.
Proof.
  intros Hne Hrt. unfold reload, credentials at 1. cbn [_credentials localStorage].
  rewrite save_stored, decide_False by done. by rewrite Hrt.
Qed.

Lemma findCredentials_in s a pw q :
  (a, pw) ∈ (findCredentials s q).1 ↔ mkCredential s a pw ∈ (credentials q).1.
Proof.
  unfold findCredentials. destruct (credentials q) as [cs p1].
  cbn [fst]. rewrite list_elem_of_fmap. split.
  - intros ([s' a' pw'] & [= -> ->] & [Hs Hc]%list_elem_of_filter).
    simpl in Hs. by subst.
  - intros Hc. exists (mkCredential s a pw). split; [done|].
    by apply list_elem_of_filter.
Qed.

Lemma getPassword_head s a p :
  (getPassword s a p).1
  = password <$> head (filter (same_pair s a) (credentials p).1).
Proof.
  unfold getPassword, doGetPassword. destruct (credentials p) as [cs p1].
  cbn [fst]. apply doGetPassword_loop_head.
Qed.

Lemma getPassword_None s a p :
  (∀ c, c ∈ (credentials p).1 → ¬ same_pair s a c) →
  (getPassword s a p).1 = None.
Proof.
  intros Hno. rewrite getPassword_head, fmap_None, head_None.
  apply elem_of_nil_inv. intros c [Hp Hc]%list_elem_of_filter.
  by apply (Hno c).
Qed.

(** X1: [getPassword] answers with the password of the first credential
    stored for the pair, and with [null] exactly when none is stored. *)
Theorem getPassword_first_of_pair s a p :
  (getPassword s a p).1
    = password <$> head (filter (same_pair s a) (credentials p).1)
  ∧ ((getPassword s a p).1 = None
       ↔ ∀ c, c ∈ (credentials p).1 → ¬ same_pair s a c).
Proof.
  unfold getPassword, doGetPassword. destruct (credentials p) as [cs p1].
  cbn [fst]. rewrite doGetPassword_loop_head. split; [done|].
  rewrite fmap_None, head_None. split.
  - intros Hnil c Hc Hp.
    assert (c ∈ filter (same_pair s a) cs) as Hin
      by (by apply list_elem_of_filter).
    rewrite Hnil in Hin. by apply elem_of_nil in Hin.
  - intros Hno. apply elem_of_nil_inv. intros c [Hp Hc]%list_elem_of_filter.
    by apply (Hno c).
Qed.

(** X2: [findPassword] answers with the password of the first credential
    of the service, whatever its account: the second component of the first
    entry [findCredentials] lists, and [null] exactly when it lists none. *)
Theorem findPassword_first_of_service s p :
  (findPassword s p).1
    = password <$> head (filter (λ c, service c = s) (credentials p).1)
  ∧ (findPassword s p).1 = snd <$> head (findCredentials s p).1
  ∧ ((findPassword s p).1 = None ↔ (findCredentials s p).1 = []).
Proof.
  unfold findPassword, doGetPassword, findCredentials.
  destruct (credentials p) as [cs p1]. cbn [fst].
  rewrite doGetPassword_loop_service.
  destruct (filter (λ c, service c = s) cs) as [|c cs']; by repeat split.
Qed.

(** X3: [findCredentials] lists exactly the stored credentials of the
    service; what [getPassword] returns for an account is among them; and
    after [setPassword] the list of the service is the old one without the
    account, followed by the new entry, while the lists of other services
    are as before. *)
Theorem findCredentials_of_service s p :
  (∀ a pw, (a, pw) ∈ (findCredentials s p).1
           ↔ mkCredential s a pw ∈ (credentials p).1)
  ∧ (∀ a pw, (getPassword s a p).1 = Some pw
             → (a, pw) ∈ (findCredentials s p).1)
  ∧ (∀ a pw, (findCredentials s (setPassword s a pw p)).1
             = filter (λ ap, ap.1 ≠ a) (findCredentials s p).1 ++ [(a, pw)])
  ∧ (∀ s' a pw, s' ≠ s →
       (findCredentials s (setPassword s' a pw p)).1 = (findCredentials s p).1).
Proof.
  pose proof (findCredentials_in s) as Hin.
  assert (Hset : ∀ s' a pw,
            (findCredentials s (setPassword s' a pw p)).1
            = ((λ c, (account c, password c)) <$>
                 filter (λ c, service c = s)
                   (filter (λ c, ¬ same_pair s' a c) (credentials p).1 ++
                      [mkCredential s' a pw]))).
  { intros s' a pw. unfold findCredentials at 1.
    pose proof (setPassword_credentials s' a pw p) as Hc.
    destruct (credentials (setPassword s' a pw p)) as [cs' p1].
    cbn [fst] in *. by rewrite Hc. }
  split_and!.
  - intros a pw. apply Hin.
  - intros a pw Hget. apply Hin.
    rewrite getPassword_head in Hget.
    apply fmap_Some in Hget as (c & Hc & ->).
    apply head_Some_elem_of in Hc.
    apply list_elem_of_filter in Hc as [[<- <-] Hc]. by destruct c.
  - intros a pw. rewrite Hset. unfold findCredentials.
    destruct (credentials p) as [cs p1]. cbn [fst].
    rewrite filter_app, fmap_app, filter_service_not_pair. f_equal.
    rewrite filter_cons, decide_True by done. done.
  - intros s' a pw Hne. rewrite Hset. unfold findCredentials.
    destruct (credentials p) as [cs p1]. cbn [fst].
    rewrite filter_app, filter_cons, decide_False by (simpl; congruence).
    by rewrite filter_nil, app_nil_r, filter_service_other_pair.
Qed.

(** X4: once [deletePassword] has run, the pair has no password, no entry
    of the account is listed for the service, and deleting it again answers
    [false]. *)
Theorem deletePassword_removes_the_pair s a p :
  let p' := (deletePassword s a p).2 in
  (getPassword s a p').1 = None
  ∧ (deletePassword s a p').1 = false
  ∧ (∀ pw, (a, pw) ∉ (findCredentials s p').1)
  ∧ (credentials (deletePassword s a p').2).1 = (credentials p').1.
Proof.
  cbv zeta.
  assert (Hno : ∀ c, c ∈ (credentials (deletePassword s a p).2).1
                     → ¬ same_pair s a c).
  { intros c. rewrite deletePassword_credentials.
    by intros [? _]%list_elem_of_filter. }
  split_and!.
  - by apply getPassword_None.
  - rewrite deletePassword_found. apply bool_decide_eq_false.
    intros (c & Hc & Hp)%list.Exists_exists. by apply (Hno c).
  - intros pw Hin.
    apply (proj1 (findCredentials_in s a pw _)) in Hin.
    by apply (Hno _ Hin).
  - rewrite !deletePassword_credentials. apply filter_not_pair_idem.
Qed.

(** X5: looking a password up, by pair or by service, and listing the
    credentials of a service never write to [localStorage]; neither does a
    [deletePassword] that finds nothing, which also leaves the stored
    credentials as they are. *)
Theorem reads_never_write_localStorage s a p :
  localStorage (getPassword s a p).2 = localStorage p
  ∧ localStorage (findPassword s p).2 = localStorage p
  ∧ localStorage (findCredentials s p).2 = localStorage p
  ∧ ((deletePassword s a p).1 = false →
       localStorage (deletePassword s a p).2 = localStorage p
       ∧ (credentials (deletePassword s a p).2).1 = (credentials p).1).
Proof.
  pose proof (credentials_localStorage p) as Hls.
  unfold getPassword, findPassword, doGetPassword, findCredentials.
  split_and!; try (by destruct (credentials p)).
  intros Hfound. split.
  - unfold deletePassword in *. destruct (credentials p) as [cs p1].
    cbn [fst snd] in *. by rewrite Hfound.
  - rewrite deletePassword_credentials.
    rewrite deletePassword_found in Hfound.
    apply bool_decide_eq_false in Hfound.
    induction (credentials p).1 as [|c cs IH]; [done|].
    rewrite filter_cons, decide_True.
    + rewrite IH; [done|]. intros Hex. apply Hfound. by right.
    + intros Hp. apply Hfound. by left.
Qed.

(** X6: what [setPassword] saved is what a new provider object over the
    same [localStorage] loads, provided the saved text is not empty and
    [JSON.parse] undoes [JSON.stringify] on the saved array; in particular
    the password is still there after the reload. *)
Theorem setPassword_survives_reload s a pw p :
  let p' := setPassword s a pw p in
  JSON_stringify (credentials p').1 ≠ "" →
  JSON_parse (JSON_stringify (credentials p').1) = Some (credentials p').1 →
  (credentials (reload p')).1 = (credentials p').1
  ∧ (getPassword s a (reload p')).1 = Some pw.
Proof.
  cbv zeta. intros Hne Hrt.
  assert (Hload : (credentials (reload (setPassword s a pw p))).1
                  = (credentials (setPassword s a pw p)).1).
  { unfold setPassword in *.
    destruct (deletePassword s a p) as [found p1].
    destruct (credentials p1) as [cs p2].
    rewrite save_credentials in Hne, Hrt |- *. by apply save_reload. }
  split; [done|].
  rewrite getPassword_head.
  rewrite Hload, setPassword_credentials, filter_app, filter_same_pair_removed.
  simpl. rewrite filter_cons, decide_True by done. done.
Qed.

(** X7: [setPassword] and [deletePassword] for one pair do not change what
    [getPassword] returns for any other pair. *)
Theorem other_pairs_read_the_same s a pw s' a' p :
  (s', a') ≠ (s, a) →
  (getPassword s' a' (setPassword s a pw p)).1 = (getPassword s' a' p).1
  ∧ (getPassword s' a' (deletePassword s a p).2).1 = (getPassword s' a' p).1.
Proof.
  intros Hne.
  rewrite !getPassword_head.
  rewrite setPassword_credentials, deletePassword_credentials, filter_app.
  rewrite !filter_same_pair_other by done.
  rewrite filter_cons, decide_False, filter_nil, app_nil_r; [done|].
  intros [Hs Ha]. simpl in *. congruence.
Qed.

(** X8: a second [setPassword] for the pair replaces the first: the stored
    array is the one the second call alone would have left. *)
Theorem setPassword_overwrites s a pw1 pw2 p :
  (credentials (setPassword s a pw2 (setPassword s a pw1 p))).1
  = (credentials (setPassword s a pw2 p)).1.
Proof.
  rewrite !setPassword_credentials, filter_app, filter_not_pair_idem.
  rewrite filter_cons, decide_False, filter_nil, app_nil_r; [done|].
  intros Hn. by apply Hn.
Qed.

(** X9: a store that holds at most one credential per pair still does so
    after [setPassword] and after [deletePassword]. *)
Theorem unique_pairs_kept s a pw p :
  unique_pairs (credentials p).1 →
  unique_pairs (credentials (setPassword s a pw p)).1
  ∧ unique_pairs (credentials (deletePassword s a p).2).1.
Proof.
  intros Hu. split.
  - by apply setPassword_unique_pairs.
  - by apply deletePassword_unique_pairs.
Qed.

(** X22: a provider that has not read its credentials yet starts from the
    empty array when [localStorage] has no entry, an empty one, or one that
    does not parse to an array, and from the parsed array otherwise; once
    read, the array is kept and [localStorage] is not looked at again; with
    nothing stored no password is found and nothing is there to delete. *)
Theorem credentials_loaded_once p :
  (_credentials p = None →
     (localStorage p !! CREDENTIALS_OPENED_KEY = None → (credentials p).1 = [])
     ∧ (localStorage p !! CREDENTIALS_OPENED_KEY = Some "" →
          (credentials p).1 = [])
     ∧ (∀ text, localStorage p !! CREDENTIALS_OPENED_KEY = Some text →
          JSON_parse text = None → (credentials p).1 = [])
     ∧ (∀ text cs, localStorage p !! CREDENTIALS_OPENED_KEY = Some text →
          text ≠ "" → JSON_parse text = Some cs → (credentials p).1 = cs))
  ∧ (∀ ls', (credentials (mkProvider (_credentials (credentials p).2) ls')).1
            = (credentials p).1)
  ∧ (∀ s a, _credentials p = None →
       localStorage p !! CREDENTIALS_OPENED_KEY = None →
       (getPassword s a p).1 = None ∧ (findPassword s p).1 = None
       ∧ (deletePassword s a p).1 = false).
Proof.
  split_and!.
  - intros Hnone. unfold credentials. rewrite Hnone. split_and!.
    + by intros ->.
    + by intros ->.
    + intros text -> Hp. case_decide; [done|]. by rewrite Hp.
    + intros text cs -> Hne Hp. rewrite decide_False by done. by rewrite Hp.
  - intros ls'. by rewrite credentials_loaded.
  - intros s a Hnone Hls.
    unfold getPassword, findPassword, doGetPassword, deletePassword, credentials.
    by rewrite Hnone, Hls.
Qed.

End Provider.

(** *** A small store *)

(** A stand-in for [JSON.stringify]: only the passwords, one per line. *)
Definition passwords_text (cs : list ICredential) : string :=
  foldr (λ c acc, password c +:+ ";" +:+ acc) "" cs.

Definition no_parse (s : string) : option (list ICredential) := None.

Definition two_accounts : provider :=
  mkProvider
    (Some [mkCredential "github" "ann" "p1"; mkCredential "github" "bob" "p2";
           mkCredential "github" "ann" "p3"])
    ∅.

Example getPassword_first_match :
  (getPassword no_parse "github" "ann" two_accounts).1 = Some "p1".
Proof. reflexivity. Qed.

Example setPassword_replaces :
  _credentials (setPassword no_parse passwords_text "github" "ann" "new"
                  two_accounts)
  = Some [mkCredential "github" "bob" "p2"; mkCredential "github" "ann" "new"].
Proof. reflexivity. Qed.

Example setPassword_saves :
  localStorage (setPassword no_parse passwords_text "github" "ann" "new"
                  two_accounts) !! CREDENTIALS_OPENED_KEY
  = Some "p2;new;".
Proof. vm_compute. reflexivity. Qed.

Example deletePassword_other_account :
  (deletePassword no_parse passwords_text "github" "eve" two_accounts).1
  = false.
Proof. reflexivity. Qed.

Example credentials_lazy_load :
  (credentials no_parse (mkProvider None ∅)).1 = [].
Proof. reflexivity. Qed.

(** A stand-in for [JSON.parse] that reads back the one text the reload
    example saves. *)
Definition parse_saved (s : string) : option (list ICredential) :=
  if decide (s = "p2;new;") then
    Some [mkCredential "github" "bob" "p2"; mkCredential "github" "ann" "new"]
  else None.

Definition one_account : provider :=
  mkProvider (Some [mkCredential "github" "bob" "p2"]) ∅.

(** X6 on the small store: the new password is read after a reload. *)
Lemma setPassword_survives_reload_witness :
  (getPassword parse_saved "github" "ann"
     (reload (setPassword parse_saved passwords_text "github" "ann" "new"
                two_accounts))).1 = Some "new".
Proof.
  apply (setPassword_survives_reload parse_saved passwords_text
           "github" "ann" "new" two_accounts); [discriminate|reflexivity].
Defined.

(** X7 on the small store: bob keeps his password. *)
Lemma other_pairs_read_the_same_witness :
  (getPassword no_parse "github" "bob"
     (setPassword no_parse passwords_text "github" "ann" "new" two_accounts)).1
  = (getPassword no_parse "github" "bob" two_accounts).1.
Proof.
  apply (other_pairs_read_the_same no_parse passwords_text
           "github" "ann" "new" "github" "bob" two_accounts).
  discriminate.
Defined.

(** X9 on a store of one credential. *)
Lemma unique_pairs_kept_witness :
  unique_pairs
    (credentials no_parse
       (setPassword no_parse passwords_text "github" "ann" "new" one_account)).1.
Proof.
  apply (unique_pairs_kept no_parse passwords_text
           "github" "ann" "new" one_account).
  intros s a. simpl. rewrite filter_cons. case_decide; simpl; lia.
Defined.

End Credentials.

(** ** URI components, the insertion-ordered [Map] and [encodeURIComponent] *)

Module Uri.

(** [UriComponents] (vs/base/common/uri). *)
Record URI := mkURI {
  scheme : string;
  authority : string;
  path : string;
  query : string;
  fragment : string
}.

(** [Partial<UriComponents>]: every component may be left out. *)
Record PartialUriComponents := mkPartial {
  p_scheme : option string;
  p_authority : option string;
  p_path : option string;
  p_query : option string;
  p_fragment : option string
}.

(** Modelled from the spec: [URI.with] (vs/base/common/uri is not part of
    the sources).  The spec has [create] return "a redirect URI pointing at
    a fixed /callback path on the current origin, carrying the assembled
    query string": the components given replace those of the receiver, an
    [undefined] one keeps the receiver's. *)
Definition URI_with (u : URI) (path' query' : option string) : URI :=
  mkURI (scheme u) (authority u)
        (default (path u) path') (default (query u) query') (fragment u).

(** A JavaScript [Map<string, string>]: entries in insertion order, [set]
    on a key already present replaces the value where the key stands. *)
Definition Map := list (string * string).

Fixpoint map_set (key value : string) (m : Map) : Map :=
  match m with
  | [] => [(key, value)]
  | (k, v) :: m' =>
      if decide (k = key) then (key, value) :: m'
      else (k, v) :: map_set key value m'
  end.

Definition map_get (key : string) (m : Map) : option string :=
  snd <$> List.find (λ kv, bool_decide (kv.1 = key)) m.

(** *** [encodeURIComponent] on the UTF-8 bytes of a string: the unreserved
    marks [A-Z a-z 0-9 - _ . ! ~ * ' ( )] stay, every other byte becomes
    [%XX] in upper-case hexadecimal. *)
Definition uriUnescaped (c : ascii) : bool :=
  let n := nat_of_ascii c in
  ((65 <=? n) && (n <=? 90)) || ((97 <=? n) && (n <=? 122))
  || ((48 <=? n) && (n <=? 57))
  || existsb (Ascii.eqb c)
       ["-"; "_"; "."; "!"; "~"; "*"; "'"; "("; ")"]%char.

Definition hexDigit (n : nat) : ascii :=
  List.nth n (list_ascii_of_string "0123456789ABCDEF") "0"%char.

Definition percentEncode (c : ascii) : string :=
  let n := nat_of_ascii c in
  String "%" (String (hexDigit (n / 16)) (String (hexDigit (n mod 16)) "")).

Fixpoint encodeURIComponent (s : string) : string :=
  match s with
  | "" => ""
  | String c s' =>
      (if uriUnescaped c then String c "" else percentEncode c)
        +:+ encodeURIComponent s'
  end.

Definition unhexDigit (c : ascii) : nat :=
  let n := nat_of_ascii c in
  if (48 <=? n) && (n <=? 57) then n - 48 else n - 55.

(** The inverse the server applies to the component values (read here only
    on text that [encodeURIComponent] produced). *)
Fixpoint decodeURIComponent (s : string) : string :=
  match s with
  | String "%" (String h (String l s')) =>
      String (ascii_of_nat (16 * unhexDigit h + unhexDigit l))
             (decodeURIComponent s')
  | String c s' => String c (decodeURIComponent s')
  | "" => ""
  end.

(** *** The query string as the server reads it: split at [&], then each
    piece at its first [=]. *)
Fixpoint string_forall (P : ascii → bool) (s : string) : bool :=
  match s with
  | "" => true
  | String c s' => P c && string_forall P s'
  end.

(** A byte that is neither [&] nor [=]. *)
Definition plain (c : ascii) : bool :=
  negb (Ascii.eqb c "&") && negb (Ascii.eqb c "=").

Fixpoint split_on (sep : ascii) (s : string) : list string :=
  match s with
  | "" => [""]
  | String c s' =>
      if Ascii.eqb c sep then "" :: split_on sep s'
      else match split_on sep s' with
           | piece :: pieces => String c piece :: pieces
           | [] => [String c ""]
           end
  end.

Fixpoint split_first (sep : ascii) (s : string) : string * string :=
  match s with
  | "" => ("", "")
  | String c s' =>
      if Ascii.eqb c sep then ("", s')
      else let '(k, v) := split_first sep s' in (String c k, v)
  end.

Definition query_params (q : string) : list (string * string) :=
  split_first "=" <$> split_on "&" q.

(** [key=value] pieces joined by [&]. *)
Definition param (kv : string * string) : string := kv.1 +:+ "=" +:+ kv.2.

Fixpoint join_params (kvs : list (string * string)) : string :=
  match kvs with
  | [] => ""
  | [kv] => param kv
  | kv :: rest => param kv +:+ "&" +:+ join_params rest
  end.

(** A byte other than [&]. *)
Definition not_amp (c : ascii) : bool := negb (Ascii.eqb c "&").

(** A parameter whose key and value have neither [&] nor [=]. *)
Definition plain_param (kv : string * string) : Prop :=
  string_forall plain kv.1 = true ∧ string_forall plain kv.2 = true.

(** *** Properties *)

Lemma string_app_assoc (a b c : string) : (a +:+ b) +:+ c = a +:+ (b +:+ c).
Proof. induction a as [|x a IH]; simpl; [done|by rewrite IH]. Qed.

Lemma string_app_nil_r (a : string) : a +:+ "" = a.
Proof. induction a as [|x a IH]; simpl; [done|by rewrite IH]. Qed.

Lemma string_forall_app P (a b : string) :
  string_forall P (a +:+ b) = string_forall P a && string_forall P b.
Proof.
  induction a as [|x a IH]; simpl; [done|]. by rewrite IH, andb_assoc.
Qed.

Lemma encoded_byte_plain (c : ascii) :
  string_forall plain (if uriUnescaped c then String c "" else percentEncode c)
    = true.
Proof. destruct c as [[] [] [] [] [] [] [] []]; reflexivity. Qed.

Lemma encodeURIComponent_plain (s : string) :
  string_forall plain (encodeURIComponent s) = true.
Proof.
  induction s as [|c s IH]; simpl; [done|].
  by rewrite string_forall_app, encoded_byte_plain, IH.
Qed.

Lemma decode_encoded_byte (c : ascii) (rest : string) :
  decodeURIComponent
    ((if uriUnescaped c then String c "" else percentEncode c) +:+ rest)
  = String c (decodeURIComponent rest).
Proof. destruct c as [[] [] [] [] [] [] [] []]; reflexivity. Qed.

Lemma decode_encodeURIComponent (s : string) :
  decodeURIComponent (encodeURIComponent s) = s.
Proof.
  induction s as [|c s IH]; [done|].
  cbn [encodeURIComponent]. by rewrite decode_encoded_byte, IH.
Qed.

Lemma encodeURIComponent_inj (s1 s2 : string) :
  encodeURIComponent s1 = encodeURIComponent s2 → s1 = s2.
Proof.
  intros H. rewrite <- (decode_encodeURIComponent s1), H.
  apply decode_encodeURIComponent.
Qed.

Lemma encodeURIComponent_empty (s : string) :
  encodeURIComponent s = "" → s = "".
Proof. intros H. apply encodeURIComponent_inj. by rewrite H. Qed.

Lemma split_on_no_amp (s : string) :
  string_forall not_amp s = true → split_on "&" s = [s].
Proof.
  induction s as [|c s IH]; simpl; [done|].
  intros [Hc Hs]%andb_prop. rewrite (IH Hs).
  destruct (Ascii.eqb_spec c "&") as [->|]; [done|done].
Qed.

Lemma split_on_no_amp_app (a b : string) :
  string_forall not_amp a = true →
  split_on "&" (a +:+ String "&" b) = a :: split_on "&" b.
Proof.
  induction a as [|c a IH]; simpl; [done|].
  intros [Hc Ha]%andb_prop. rewrite (IH Ha).
  destruct (Ascii.eqb_spec c "&") as [->|]; [done|done].
Qed.

Lemma plain_no_amp (s : string) :
  string_forall plain s = true → string_forall not_amp s = true.
Proof.
  induction s as [|c s IH]; simpl; [done|].
  intros [[Hc _]%andb_prop Hs]%andb_prop.
  rewrite IH by done. unfold not_amp. by rewrite Hc.
Qed.

Lemma split_first_plain (k v : string) :
  string_forall plain k = true →
  split_first "=" (k +:+ String "=" v) = (k, v).
Proof.
  induction k as [|c k IH]; simpl; [done|].
  intros [Hc Hk]%andb_prop. rewrite (IH Hk).
  destruct (Ascii.eqb_spec c "=") as [->|]; [|done].
  unfold plain in Hc. by rewrite andb_comm in Hc.
Qed.

Lemma param_no_amp kv :
  plain_param kv → string_forall not_amp (param kv) = true.
Proof.
  intros [Hk Hv]. unfold param.
  rewrite !string_forall_app.
  rewrite (plain_no_amp kv.1), (plain_no_amp kv.2) by done. done.
Qed.

(** Reading back a rendered query returns its parameters, in order. *)
Lemma query_params_join (kvs : list (string * string)) :
  kvs ≠ [] → Forall plain_param kvs →
  query_params (join_params kvs) = kvs.
Proof.
  unfold query_params. intros Hne Hall.
  induction Hall as [|kv rest Hkv Hrest IH]; [done|].
  destruct rest as [|kv' rest].
  - cbn [join_params]. rewrite split_on_no_amp by by apply param_no_amp.
    destruct Hkv as [Hk Hv]. unfold param. cbn [fmap list_fmap].
    change ("=" +:+ kv.2) with (String "=" kv.2).
    rewrite split_first_plain by done. by destruct kv.
  - change (join_params (kv :: kv' :: rest))
      with (param kv +:+ String "&" (join_params (kv' :: rest))).
    rewrite split_on_no_amp_app by by apply param_no_amp.
    rewrite fmap_cons, IH by done.
    destruct Hkv as [Hk Hv]. unfold param.
    change ("=" +:+ kv.2) with (String "=" kv.2).
    rewrite split_first_plain by done. by destruct kv.
Qed.

End Uri.

(** ** PollingURLCallbackProvider *)

Module UrlCallback.
Import Uri.

Definition FETCH_INTERVAL : Z := 500.
Definition FETCH_TIMEOUT : Z := 5 * 60 * 1000.

Module QUERY_KEYS.
Definition REQUEST_ID : string := "vscode-requestId".
Definition SCHEME : string := "vscode-scheme".
Definition AUTHORITY : string := "vscode-authority".
Definition PATH : string := "vscode-path".
Definition QUERY : string := "vscode-query".
Definition FRAGMENT : string := "vscode-fragment".
End QUERY_KEYS.
Import QUERY_KEYS.

(** The five components [create] looks at, with the key each one is sent
    under. *)
Inductive component := CScheme | CAuthority | CPath | CQuery | CFragment.

Definition components : list component :=
  [CScheme; CAuthority; CPath; CQuery; CFragment].

Definition key_of (c : component) : string :=
  match c with
  | CScheme => SCHEME
  | CAuthority => AUTHORITY
  | CPath => PATH
  | CQuery => QUERY
  | CFragment => FRAGMENT
  end.

Definition get_component (c : component) (o : PartialUriComponents)
    : option string :=
  match c with
  | CScheme => p_scheme o
  | CAuthority => p_authority o
  | CPath => p_path o
  | CQuery => p_query o
  | CFragment => p_fragment o
  end.

(** The closure of one poll sequence: the arguments of
    [periodicFetchCallback]. *)
Record ticket := mkTicket {
  requestId : string;
  startTime : Z
}.

(** What [await request(...)] and [await streamToBuffer(...)] hand back:
    the buffered body, or a rejection. *)
Inductive response :=
| Rejected
| Body (content : string).

(** How a poll sequence ended. *)
Inductive ending :=
| Delivered   (* [fire] was called with the parsed body *)
| Dropped     (* the body did not parse; the error went to the console *)
| Expired     (* empty body once the timeout had passed *)
| Failed.     (* the request was rejected *)

Inductive phase :=
| Fetching                (* suspended at the awaits, request in flight *)
| Waiting (due : Z)       (* [setTimeout] pending, not to run before [due] *)
| Finished (e : ending).

Record slot := mkSlot {
  tk : ticket;
  ph : phase
}.

Definition empty_options : PartialUriComponents :=
  mkPartial None None None None None.

(** [if (value) { queryValues.set(key, value); }] *)
Definition set_if_truthy (key : string) (value : option string) (m : Map)
    : Map :=
  match value with
  | Some v => if decide (v = "") then m else map_set key v m
  | None => m
  end.

(** The [queryValues] map [create] has built when it reaches line 151. *)
Definition create_queryValues (options : option PartialUriComponents)
    (requestId' : string) : Map :=
  let queryValues := map_set REQUEST_ID requestId' [] in
  let o := default empty_options options in
  let queryValues := set_if_truthy SCHEME (p_scheme o) queryValues in
  let queryValues := set_if_truthy AUTHORITY (p_authority o) queryValues in
  let queryValues := set_if_truthy PATH (p_path o) queryValues in
  let queryValues := set_if_truthy QUERY (p_query o) queryValues in
  set_if_truthy FRAGMENT (p_fragment o) queryValues.

Definition set_component (c : component) (v : option string)
    (o : PartialUriComponents) : PartialUriComponents :=
  match c with
  | CScheme => mkPartial v (p_authority o) (p_path o) (p_query o) (p_fragment o)
  | CAuthority => mkPartial (p_scheme o) v (p_path o) (p_query o) (p_fragment o)
  | CPath => mkPartial (p_scheme o) (p_authority o) v (p_query o) (p_fragment o)
  | CQuery => mkPartial (p_scheme o) (p_authority o) (p_path o) v (p_fragment o)
  | CFragment => mkPartial (p_scheme o) (p_authority o) (p_path o) (p_query o) v
  end.

(** The map with every value passed through [encodeURIComponent]. *)
Definition encoded (m : Map) : list (string * string) :=
  (λ kv, (kv.1, encodeURIComponent kv.2)) <$> m.

(** The entries the components of [o] with a non-empty value stand for, in
    the order [create] looks at them. *)
Definition given (o : PartialUriComponents) : Map :=
  omap (λ c, match get_component c o with
             | Some v => if decide (v = "") then None else Some (key_of c, v)
             | None => None
             end) components.

Section Provider.

(** [URI.parse(window.location.href)] *)
Variable href : URI.

(** The value [JSON.parse] returns ([None]: it throws), as handed to
    [fire]. *)
Context {Payload : Type}.
Variable JSON_parse : string → option Payload.

(** [if (!query) { query = ''; }] *)
Definition pre_query (query0 : option string) : string :=
  match query0 with
  | Some q => if decide (q = "") then "" else q
  | None => ""
  end.

(** One round of the [forEach] callback of [doCreateUri], on the pair
    [(query, index)]. *)
Definition doCreateUri_each (st : option string * nat)
    (entry : string * string) : option string * nat :=
  let '(query0, index) := st in
  let '(key, value) := entry in
  let query1 := pre_query query0 in
  let prefix := if decide (index = 0) then "" else "&" in
  (Some (query1 +:+ prefix +:+ key +:+ "=" +:+ encodeURIComponent value),
   S index).

Definition doCreateUri (path' : string) (queryValues : Map) : URI :=
  let '(query', _) := fold_left doCreateUri_each queryValues (None, 0) in
  URI_with href (Some path') query'.

(** The URI [create] returns. *)
Definition create_uri (options : option PartialUriComponents)
    (requestId' : string) : URI :=
  doCreateUri "/callback" (create_queryValues options requestId').

(** The URI [periodicFetchCallback] requests (before [toString(true)]). *)
Definition fetch_uri (requestId' : string) : URI :=
  doCreateUri "/fetch-callback" (map_set REQUEST_ID requestId' []).

Inductive effect :=
| HttpGet (url : URI)
| Fire (uri : Payload)
| ConsoleError
| SetTimeout (delay : Z)
| UnhandledRejection.

(** [periodicFetchCallback] from the point where the awaits return (lines
    168-182), [now] being what [Date.now()] reads there. *)
Definition periodicFetchCallback_resume (t : ticket) (r : response) (now : Z)
    : list effect * phase :=
  match r with
  | Rejected => ([UnhandledRejection], Finished Failed)
  | Body content =>
      if decide (0 < String.length content) then
        match JSON_parse content with
        | Some uri => ([Fire uri], Finished Delivered)
        | None => ([ConsoleError], Finished Dropped)
        end
      else if decide (now - startTime t < FETCH_TIMEOUT)%Z then
        ([SetTimeout FETCH_INTERVAL], Waiting (now + FETCH_INTERVAL))
      else ([], Finished Expired)
  end.

(** *** The provider on the event loop

    One slot per call of [create], in creation order.  [log] is the record
    of effects, newest first, each with the clock reading and the slot of
    the poll sequence that caused it. *)
Record entry := mkEntry {
  at_time : Z;
  by_slot : nat;
  what : effect
}.

Record world := mkWorld {
  clock : Z;
  slots : list slot;
  log : list entry
}.

Definition init (now : Z) : world := mkWorld now [] [].

(** [create(options)] with [generateUuid()] returning [uuid]: the URI
    returned, and the world with the new sequence suspended at its first
    request. *)
Definition create (options : option PartialUriComponents) (uuid : string)
    (w : world) : URI * world :=
  let t := mkTicket uuid (clock w) in
  (create_uri options uuid,
   mkWorld (clock w)
           (slots w ++ [mkSlot t Fetching])
           (mkEntry (clock w) (List.length (slots w)) (HttpGet (fetch_uri uuid))
              :: log w)).

(** What the environment does: time passes, [create] is called, the request
    of a sequence completes, the timer of a sequence runs. *)
Inductive action :=
| Tick (dt : N)
| Create (options : option PartialUriComponents) (uuid : string)
| Respond (i : nat) (r : response)
| TimerFires (i : nat).

(** An action that cannot happen in the state (no such sequence, nothing
    awaited, timer not yet due) gives [None].  The clock is the one
    [Date.now()] reads; it does not run backwards ([Tick] takes a natural
    number of milliseconds), and a [setTimeout] callback does not run before
    its delay has passed. *)
Definition step (w : world) (a : action) : option world :=
  match a with
  | Tick dt => Some (mkWorld (clock w + Z.of_N dt) (slots w) (log w))
  | Create options uuid => Some (create options uuid w).2
  | Respond i r =>
      match slots w !! i with
      | Some (mkSlot t Fetching) =>
          let '(effects, ph') := periodicFetchCallback_resume t r (clock w) in
          Some (mkWorld (clock w)
                        (<[i := mkSlot t ph']> (slots w))
                        (rev (mkEntry (clock w) i <$> effects) ++ log w))
      | _ => None
      end
  | TimerFires i =>
      match slots w !! i with
      | Some (mkSlot t (Waiting due)) =>
          if decide (due ≤ clock w)%Z then
            Some (mkWorld (clock w)
                          (<[i := mkSlot t Fetching]> (slots w))
                          (mkEntry (clock w) i (HttpGet (fetch_uri (requestId t)))
                             :: log w))
          else None
      | _ => None
      end
  end.

Fixpoint run (w : world) (acts : list action) : option world :=
  match acts with
  | [] => Some w
  | a :: acts' =>
      match step w a with
      | Some w' => run w' acts'
      | None => None
      end
  end.

(** *** Reading the log *)

Definition is_request (e : effect) : bool :=
  match e with HttpGet _ => true | _ => false end.

Definition is_timer (e : effect) : bool :=
  match e with SetTimeout _ => true | _ => false end.

(** What subscribers of [onCallback] or the console get to see. *)
Definition is_surfaced (e : effect) : bool :=
  match e with Fire _ | ConsoleError => true | _ => false end.

Definition entries_by (i : nat) (l : list entry) : list entry :=
  filter (λ e, by_slot e = i) l.

(** The times at which sequence [i] issued a request, newest first. *)
Definition requests_by (i : nat) (l : list entry) : list Z :=
  at_time <$> filter (λ e, is_request (what e) = true) (entries_by i l).

(** Newest first, each time at least [FETCH_INTERVAL] after the one
    before. *)
Fixpoint spaced (ts : list Z) : Prop :=
  match ts with
  | t1 :: rest =>
      match rest with
      | t2 :: _ => (t2 + FETCH_INTERVAL ≤ t1)%Z
      | [] => True
      end ∧ spaced rest
  | [] => True
  end.

(** The sequence the action is about ([Create] makes the next slot). *)
Definition target (w : world) (a : action) : option nat :=
  match a with
  | Tick _ => None
  | Create _ _ => Some (List.length (slots w))
  | Respond i _ | TimerFires i => Some i
  end.

Definition targets (i : nat) (a : action) : bool :=
  match a with
  | Respond j _ | TimerFires j => bool_decide (j = i)
  | _ => false
  end.

(** No response to sequence [i] among the actions carries a body. *)
Definition no_data (i : nat) (a : action) : Prop :=
  match a with
  | Respond j (Body content) => j = i → content = ""
  | _ => True
  end.

Definition finished (p : phase) : bool :=
  match p with Finished _ => true | _ => false end.

(** What holds of a sequence between any two actions: it has issued a
    request, its requests are spaced, the latest one is not in the future
    and as late as the spacing forces, there are at most 601 of them, and a
    pending timer was set before the timeout and is due no earlier than
    [FETCH_INTERVAL] after the latest request. *)
Definition slot_ok (now : Z) (reqs : list Z) (s : slot) : Prop :=
  match reqs with
  | [] => False
  | latest :: older =>
      spaced reqs ∧ (latest ≤ now)%Z
      ∧ (startTime (tk s) + FETCH_INTERVAL * Z.of_nat (List.length older)
           ≤ latest)%Z
      ∧ List.length older ≤ 600
      ∧ match ph s with
        | Waiting due =>
            (latest + FETCH_INTERVAL ≤ due)%Z
            ∧ (due - FETCH_INTERVAL - startTime (tk s) < FETCH_TIMEOUT)%Z
            ∧ List.length older < 600
        | _ => True
        end
  end.

Record wf (w : world) : Prop := mkWf {
  wf_by : ∀ e, e ∈ log w → by_slot e < List.length (slots w);
  wf_slot : ∀ i s, slots w !! i = Some s →
            slot_ok (clock w) (requests_by i (log w)) s;
  wf_timer : ∀ e s, e ∈ log w → is_timer (what e) = true →
             slots w !! by_slot e = Some s →
             what e = SetTimeout FETCH_INTERVAL
             ∧ (at_time e - startTime (tk s) < FETCH_TIMEOUT)%Z;
  wf_url : ∀ e s url, e ∈ log w → what e = HttpGet url →
           slots w !! by_slot e = Some s →
           url = fetch_uri (requestId (tk s));
  wf_surfaced : ∀ e s, e ∈ log w → is_surfaced (what e) = true →
                slots w !! by_slot e = Some s → finished (ph s) = true
}.

(** The number of actions sequence [i] has taken part in: its [create],
    and every response and timer since. *)
Definition progress (w : world) (i : nat) : nat :=
  match slots w !! i with
  | Some s =>
      2 * List.length (requests_by i (log w))
        - match ph s with Fetching => 1 | _ => 0 end
  | None => 0
  end.

(** Two worlds that agree on the clock and on every sequence but [i]:
    its slot and what was logged for it. *)
Definition agree_but (i : nat) (w w1 : world) : Prop :=
  clock w1 = clock w
  ∧ List.length (slots w1) = List.length (slots w)
  ∧ ∀ k, k ≠ i → slots w1 !! k = slots w !! k
                 ∧ entries_by k (log w1) = entries_by k (log w).

(** The four ways a step can be taken. *)
Inductive stepped (w : world) : action → world → Prop :=
| stepped_tick dt :
    stepped w (Tick dt) (mkWorld (clock w + Z.of_N dt) (slots w) (log w))
| stepped_create options uuid :
    stepped w (Create options uuid)
      (mkWorld (clock w)
         (slots w ++ [mkSlot (mkTicket uuid (clock w)) Fetching])
         (mkEntry (clock w) (List.length (slots w)) (HttpGet (fetch_uri uuid))
            :: log w))
| stepped_respond i r t effects ph' :
    slots w !! i = Some (mkSlot t Fetching) →
    periodicFetchCallback_resume t r (clock w) = (effects, ph') →
    stepped w (Respond i r)
      (mkWorld (clock w) (<[i := mkSlot t ph']> (slots w))
         (rev (mkEntry (clock w) i <$> effects) ++ log w))
| stepped_timer i t due :
    slots w !! i = Some (mkSlot t (Waiting due)) →
    (due ≤ clock w)%Z →
    stepped w (TimerFires i)
      (mkWorld (clock w) (<[i := mkSlot t Fetching]> (slots w))
         (mkEntry (clock w) i (HttpGet (fetch_uri (requestId t))) :: log w)).

(** The request ids of all sequences, in creation order. *)
Definition request_ids (w : world) : list string :=
  (λ s, requestId (tk s)) <$> slots w.

(** What sequence [i] has fired or sent to the console, newest first. *)
Definition surfaced_by (i : nat) (l : list entry) : list effect :=
  what <$> filter (λ e, is_surfaced (what e) = true) (entries_by i l).

(** What a sequence in phase [p] has surfaced: the one event of a delivery,
    the one error of a body that did not parse, nothing otherwise. *)
Definition surfaced_ok (p : phase) (es : list effect) : Prop :=
  match p with
  | Finished Delivered => ∃ uri, es = [Fire uri]
  | Finished Dropped => es = [ConsoleError]
  | _ => es = []
  end.

(** The oldest request of every sequence was issued at its [startTime]. *)
Definition started_at_creation (w : world) : Prop :=
  ∀ i s, slots w !! i = Some s →
         last (requests_by i (log w)) = Some (startTime (tk s)).

(** Every sequence has surfaced what its phase says. *)
Definition surfaced_by_phase (w : world) : Prop :=
  ∀ i s, slots w !! i = Some s → surfaced_ok (ph s) (surfaced_by i (log w)).

(** *** Properties of [create] and [doCreateUri] *)

Lemma join_params_snoc (kvs : list (string * string)) kv :
  kvs ≠ [] →
  join_params (kvs ++ [kv]) = join_params kvs +:+ "&" +:+ param kv.
Proof.
  induction kvs as [|kv0 kvs IH]; [done|]. intros _.
  destruct kvs as [|kv1 kvs]; [done|].
  change (join_params ((kv0 :: kv1 :: kvs) ++ [kv]))
    with (param kv0 +:+ "&" +:+ join_params ((kv1 :: kvs) ++ [kv])).
  rewrite IH by done.
  change (join_params (kv0 :: kv1 :: kvs))
    with (param kv0 +:+ "&" +:+ join_params (kv1 :: kvs)).
  by rewrite !string_app_assoc.
Qed.

Lemma pre_query_id (q : string) : pre_query (Some q) = q.
Proof. unfold pre_query. by case_decide. Qed.

Lemma doCreateUri_each_snoc (pre : Map) (k v : string) :
  pre ≠ [] →
  doCreateUri_each (Some (join_params (encoded pre)), List.length pre) (k, v)
  = (Some (join_params (encoded (pre ++ [(k, v)]))),
     List.length (pre ++ [(k, v)])).
Proof.
  intros Hpre. unfold doCreateUri_each. rewrite pre_query_id.
  case_decide as Hlen; [by destruct pre|].
  unfold encoded. rewrite fmap_app.
  change ((λ kv, (kv.1, encodeURIComponent kv.2)) <$> [(k, v)])
    with [(k, encodeURIComponent v)].
  rewrite join_params_snoc by by destruct pre.
  rewrite length_app, Nat.add_1_r. done.
Qed.

Lemma doCreateUri_fold (pre m : Map) :
  pre ≠ [] →
  fold_left doCreateUri_each m
    (Some (join_params (encoded pre)), List.length pre)
  = (Some (join_params (encoded (pre ++ m))), List.length (pre ++ m)).
Proof.
  revert pre. induction m as [|[k v] m IH]; intros pre Hpre.
  - by rewrite app_nil_r.
  - cbn [fold_left]. rewrite doCreateUri_each_snoc by done.
    rewrite IH by by destruct pre. by rewrite <- app_assoc.
Qed.

Lemma doCreateUri_query (path' : string) (m : Map) :
  m ≠ [] →
  doCreateUri path' m
  = mkURI (scheme href) (authority href) path'
          (join_params (encoded m)) (fragment href).
Proof.
  destruct m as [|[k v] m]; [done|]. intros _.
  unfold doCreateUri. cbn [fold_left doCreateUri_each pre_query].
  case_decide; [|done].
  change (Some _, 1) with
    (Some (join_params (encoded [(k, v)])), List.length [(k, v)]).
  by rewrite doCreateUri_fold.
Qed.

Lemma create_queryValues_given options id :
  create_queryValues options id
  = (REQUEST_ID, id) :: given (default empty_options options).
Proof.
  destruct options as [[[s|] [a|] [p|] [q|] [f|]]|];
    unfold create_queryValues, set_if_truthy, given; simpl;
    repeat (case_decide; simpl; try done); done.
Qed.

Lemma create_uri_eq options id :
  create_uri options id
  = mkURI (scheme href) (authority href) "/callback"
      (join_params
         (encoded ((REQUEST_ID, id) :: given (default empty_options options))))
      (fragment href).
Proof.
  unfold create_uri. rewrite create_queryValues_given.
  by rewrite doCreateUri_query.
Qed.

Lemma create_uri_Some o id :
  create_uri (Some o) id
  = mkURI (scheme href) (authority href) "/callback"
      (join_params (encoded ((REQUEST_ID, id) :: given o))) (fragment href).
Proof. apply create_uri_eq. Qed.

Lemma key_of_plain c : string_forall plain (key_of c) = true.
Proof. by destruct c. Qed.

Lemma key_of_inj c c' : key_of c = key_of c' → c = c'.
Proof. by destruct c, c'. Qed.

Lemma elem_of_given k s o :
  (k, s) ∈ given o
  ↔ ∃ c, k = key_of c ∧ get_component c o = Some s ∧ s ≠ "".
Proof.
  unfold given. rewrite list_elem_of_omap. split.
  - intros (c & _ & Hc). exists c.
    destruct (get_component c o) as [v|]; [|done].
    case_decide; [done|]. by injection Hc as <- <-.
  - intros (c & -> & Hc & Hs). exists c. split.
    + unfold components. destruct c; set_solver.
    + rewrite Hc. by case_decide.
Qed.

Lemma given_plain id o :
  Forall plain_param (encoded ((REQUEST_ID, id) :: given o)).
Proof.
  apply list.Forall_forall. intros [k v] Hin. unfold encoded in Hin.
  apply list_elem_of_fmap in Hin as ([k' v'] & [= -> ->] & Hin).
  split; simpl; [|apply encodeURIComponent_plain].
  apply elem_of_cons in Hin as [[= -> ->]|Hin]; [done|].
  apply elem_of_given in Hin as (c & -> & _). apply key_of_plain.
Qed.

Lemma create_uri_query_params options id :
  query_params (query (create_uri options id))
  = encoded ((REQUEST_ID, id) :: given (default empty_options options)).
Proof.
  rewrite create_uri_eq. cbn [query].
  apply query_params_join; [done|apply given_plain].
Qed.

Lemma elem_of_create_params c v options id :
  (key_of c, v) ∈ query_params (query (create_uri options id))
  ↔ ∃ s, get_component c (default empty_options options) = Some s
         ∧ s ≠ "" ∧ v = encodeURIComponent s.
Proof.
  rewrite create_uri_query_params. unfold encoded.
  rewrite fmap_cons, elem_of_cons, list_elem_of_fmap. cbn [fst snd]. split.
  - intros [[= Hk _]|([k s] & [= Hk ->] & Hin)]; [by destruct c|].
    apply elem_of_given in Hin as (c' & -> & Hc & Hs).
    apply key_of_inj in Hk as ->. eauto.
  - intros (s & Hc & Hs & ->). right. exists (key_of c, s). split; [done|].
    apply elem_of_given. eauto.
Qed.

Lemma given_set_empty c o :
  given (set_component c (Some "") o) = given (set_component c None o).
Proof. by destruct c. Qed.

(** C5 (as amended): the URI [create] returns keeps the scheme, authority
    and fragment of the current location, has the path [/callback], and its
    query reads back as the request id under [vscode-requestId] followed by
    one [vscode-] parameter, holding the URL-encoded value, for exactly the
    components that [options] gives with a non-empty value. *)
Theorem create_uri_callback_query options id :
  let u := create_uri options id in
  let o := default empty_options options in
  scheme u = scheme href ∧ authority u = authority href
  ∧ fragment u = fragment href
  ∧ path u = "/callback"
  ∧ query u = join_params (encoded ((REQUEST_ID, id) :: given o))
  ∧ query_params (query u)
      = (REQUEST_ID, encodeURIComponent id) :: encoded (given o)
  ∧ (∀ c v, (key_of c, v) ∈ query_params (query u)
        ↔ ∃ s, get_component c o = Some s ∧ s ≠ ""
               ∧ v = encodeURIComponent s)
  ∧ (∀ s, decodeURIComponent (encodeURIComponent s) = s).
Proof.
  cbv zeta. split_and!; try (by rewrite create_uri_eq).
  - apply create_uri_query_params.
  - intros c v. apply elem_of_create_params.
  - apply decode_encodeURIComponent.
Qed.

(** C7: a component given as the empty string is left out of the query
    just as an absent one is, so the URI returned is the same; no options
    at all is the same as none of the components; and a [vscode-] parameter
    of a component appears only when the component has a non-empty
    value. *)
Theorem create_omits_empty_components o id c :
  create_uri (Some (set_component c (Some "") o)) id
    = create_uri (Some (set_component c None o)) id
  ∧ (∀ v, (key_of c, v)
            ∉ query_params
                (query (create_uri (Some (set_component c (Some "") o)) id)))
  ∧ create_uri None id = create_uri (Some empty_options) id
  ∧ (∀ c' v, (key_of c', v) ∈ query_params (query (create_uri (Some o) id))
       → ∃ s, get_component c' o = Some s ∧ s ≠ "").
Proof.
  repeat split.
  - rewrite !create_uri_Some. by rewrite given_set_empty.
  - intros v (s & Hc & Hs & _)%elem_of_create_params.
    destruct c; simpl in Hc; congruence.
  - intros c' v (s & Hc & Hs & _)%elem_of_create_params. eauto.
Qed.

(** *** The poll sequences on the event loop *)

Lemma entries_by_cons i e l :
  entries_by i (e :: l)
  = if decide (by_slot e = i) then e :: entries_by i l else entries_by i l.
Proof. unfold entries_by. by rewrite filter_cons. Qed.

Lemma entries_by_app i l1 l2 :
  entries_by i (l1 ++ l2) = entries_by i l1 ++ entries_by i l2.
Proof. unfold entries_by. by rewrite filter_app. Qed.

Lemma entries_by_other i (l : list entry) :
  (∀ e, e ∈ l → by_slot e ≠ i) → entries_by i l = [].
Proof.
  induction l as [|e l IH]; [done|]. intros H.
  rewrite entries_by_cons, decide_False by (apply H; left).
  apply IH. intros e' He'. apply H. by right.
Qed.

Lemma elem_of_entries_by i e l : e ∈ entries_by i l ↔ e ∈ l ∧ by_slot e = i.
Proof. unfold entries_by. rewrite list_elem_of_filter. tauto. Qed.

Lemma requests_by_cons i e l :
  requests_by i (e :: l)
  = if decide (by_slot e = i) then
      if is_request (what e) then at_time e :: requests_by i l
      else requests_by i l
    else requests_by i l.
Proof.
  unfold requests_by. rewrite entries_by_cons.
  case_decide; [|done]. rewrite filter_cons.
  destruct (is_request (what e)); by case_decide.
Qed.

Lemma requests_by_same i l l' :
  entries_by i l' = entries_by i l → requests_by i l' = requests_by i l.
Proof. unfold requests_by. by intros ->. Qed.

Lemma resume_cases t r now effects ph' :
  periodicFetchCallback_resume t r now = (effects, ph') →
  (r = Rejected ∧ effects = [UnhandledRejection] ∧ ph' = Finished Failed)
  ∨ (∃ content uri, r = Body content ∧ content ≠ ""
       ∧ JSON_parse content = Some uri
       ∧ effects = [Fire uri] ∧ ph' = Finished Delivered)
  ∨ (∃ content, r = Body content ∧ content ≠ ""
       ∧ JSON_parse content = None
       ∧ effects = [ConsoleError] ∧ ph' = Finished Dropped)
  ∨ (r = Body "" ∧ (now - startTime t < FETCH_TIMEOUT)%Z
       ∧ effects = [SetTimeout FETCH_INTERVAL]
       ∧ ph' = Waiting (now + FETCH_INTERVAL))
  ∨ (r = Body "" ∧ (FETCH_TIMEOUT ≤ now - startTime t)%Z
       ∧ effects = [] ∧ ph' = Finished Expired).
Proof.
  unfold periodicFetchCallback_resume. destruct r as [|content].
  - intros [= <- <-]. by left.
  - destruct content as [|c content]; simpl.
    + case_decide; intros [= <- <-].
      * right. right. right. by left.
      * right. right. right. right. repeat split; [lia].
    + destruct (JSON_parse (String c content)) as [uri|] eqn:E;
        intros [= <- <-].
      * right. left. by exists (String c content), uri.
      * right. right. left. by exists (String c content).
Qed.

Lemma step_stepped w a w' : step w a = Some w' ↔ stepped w a w'.
Proof.
  split.
  - destruct a as [dt|options uuid|i r|i]; simpl.
    + intros [= <-]. constructor.
    + intros [= <-]. constructor.
    + destruct (slots w !! i) as [[t []]|] eqn:Hi; try done.
      destruct (periodicFetchCallback_resume t r (clock w))
        as [effects ph'] eqn:Hr.
      intros [= <-]. by econstructor.
    + destruct (slots w !! i) as [[t [|due|]]|] eqn:Hi; try done.
      case_decide; [|done]. intros [= <-]. by econstructor.
  - intros [dt|options uuid|i r t effects ph' Hi Hr|i t due Hi Hdue]; simpl;
      try done.
    + by rewrite Hi, Hr.
    + rewrite Hi. by case_decide.
Qed.

Lemma requests_by_app_quiet i (new l : list entry) :
  (∀ e, e ∈ new → is_request (what e) = false) →
  requests_by i (new ++ l) = requests_by i l.
Proof.
  induction new as [|e new IH]; [done|]. intros H. simpl.
  rewrite requests_by_cons, (H e) by left.
  rewrite IH by (intros e' He'; apply H; by right). by case_decide.
Qed.

Lemma resume_quiet t r now effects ph' c i :
  periodicFetchCallback_resume t r now = (effects, ph') →
  ∀ e, e ∈ rev (mkEntry c i <$> effects) →
       is_request (what e) = false ∧ by_slot e = i ∧ at_time e = c.
Proof.
  intros Hr e.
  destruct (resume_cases _ _ _ _ _ Hr)
    as [(_ & -> & _)|[(? & ? & _ & _ & _ & -> & _)|[(? & _ & _ & _ & -> & _)
       |[(_ & _ & -> & _)|(_ & _ & -> & _)]]]]; simpl;
    rewrite ?list_elem_of_singleton; try (by intros ->); by intros ?%elem_of_nil.
Qed.

(** A step leaves every sequence it is not about as it was. *)
Lemma step_frame w a w' i :
  stepped w a w' → target w a ≠ Some i →
  slots w' !! i = slots w !! i
  ∧ entries_by i (log w') = entries_by i (log w).
Proof.
  intros [dt|options uuid|j r t effects ph' Hj Hr|j t due Hj Hdue] Hi;
    simpl in *.
  - done.
  - assert (List.length (slots w) ≠ i) by congruence. split.
    + destruct (decide (i < List.length (slots w))).
      * by rewrite lookup_app_l.
      * rewrite !lookup_ge_None_2; [done|lia|rewrite length_app; simpl; lia].
    + rewrite entries_by_cons. by case_decide.
  - assert (j ≠ i) by congruence. split.
    + by rewrite list_lookup_insert_ne.
    + rewrite entries_by_app, entries_by_other; [done|].
      intros e He. by destruct (resume_quiet _ _ _ _ _ (clock w) j Hr e He)
        as (_ & -> & _).
  - assert (j ≠ i) by congruence. split.
    + by rewrite list_lookup_insert_ne.
    + rewrite entries_by_cons. by case_decide.
Qed.

Lemma step_clock w a w' : stepped w a w' → (clock w ≤ clock w')%Z.
Proof. intros []; simpl; lia. Qed.

Lemma step_clock_same w a w' :
  stepped w a w' → target w a ≠ None → clock w' = clock w.
Proof. by intros []. Qed.

Lemma step_length w a w' :
  stepped w a w' → List.length (slots w) ≤ List.length (slots w').
Proof.
  intros []; simpl; rewrite ?length_app, ?length_insert; simpl; lia.
Qed.

(** The ticket of a sequence never changes. *)
Lemma step_ticket w a w' i s :
  stepped w a w' → slots w !! i = Some s →
  ∃ s', slots w' !! i = Some s' ∧ tk s' = tk s.
Proof.
  intros Hstep Hs. destruct (decide (target w a = Some i)) as [Ht|Ht].
  - destruct Hstep as [dt|options uuid|j r t effects ph' Hj Hr|j t due Hj Hdue];
      simpl in *; try done.
    + injection Ht as <-. apply lookup_lt_Some in Hs. lia.
    + injection Ht as ->. eexists. split.
      * apply list_lookup_insert_eq. by eapply lookup_lt_Some.
      * rewrite Hj in Hs. by injection Hs as <-.
    + injection Ht as ->. eexists. split.
      * apply list_lookup_insert_eq. by eapply lookup_lt_Some.
      * rewrite Hj in Hs. by injection Hs as <-.
  - exists s. by rewrite (proj1 (step_frame _ _ _ i Hstep Ht)).
Qed.

Lemma step_log w a w' :
  stepped w a w' →
  ∃ new, log w' = new ++ log w
         ∧ ∀ e, e ∈ new → target w a = Some (by_slot e)
                          ∧ at_time e = clock w.
Proof.
  intros [dt|options uuid|j r t effects ph' Hj Hr|j t due Hj Hdue]; simpl.
  - exists []. split; [done|]. by intros e ?%elem_of_nil.
  - eexists [_]. split; [done|]. by intros e ->%list_elem_of_singleton.
  - eexists. split; [done|]. intros e He.
    by destruct (resume_quiet _ _ _ _ _ (clock w) j Hr e He) as (_ & -> & ->).
  - eexists [_]. split; [done|]. by intros e ->%list_elem_of_singleton.
Qed.

Lemma slot_ok_mono now now' reqs s :
  (now ≤ now')%Z → slot_ok now reqs s → slot_ok now' reqs s.
Proof.
  unfold slot_ok. destruct reqs as [|latest older]; [done|].
  intros Hle (H1 & H2 & H3 & H4 & H5).
  refine (conj H1 (conj _ (conj H3 (conj H4 H5)))). lia.
Qed.

Lemma finished_not_target w a w' i t e :
  stepped w a w' → slots w !! i = Some (mkSlot t (Finished e)) →
  target w a ≠ Some i.
Proof.
  intros [dt|options uuid|j r t' effects ph' Hj Hr|j t' due Hj Hdue] Hi;
    simpl; try done; intros [= <-].
  - apply lookup_lt_Some in Hi. lia.
  - by rewrite Hj in Hi.
  - by rewrite Hj in Hi.
Qed.

Lemma requests_by_fresh w :
  wf w → requests_by (List.length (slots w)) (log w) = [].
Proof.
  intros Hwf. unfold requests_by. rewrite entries_by_other; [done|].
  intros e He. pose proof (wf_by _ Hwf e He). lia.
Qed.

(** A timer entry is either an old one or the one an empty body within the
    timeout has just set. *)
Lemma step_log_timer w a w' e :
  stepped w a w' → e ∈ log w' → is_timer (what e) = true →
  e ∈ log w
  ∨ ∃ i t, a = Respond i (Body "")
           ∧ slots w !! i = Some (mkSlot t Fetching)
           ∧ e = mkEntry (clock w) i (SetTimeout FETCH_INTERVAL)
           ∧ (clock w - startTime t < FETCH_TIMEOUT)%Z.
Proof.
  intros [dt|options uuid|j r t effects ph' Hj Hr|j t due Hj Hdue]; simpl.
  - by left.
  - intros [->|He]%elem_of_cons; [done|by left].
  - intros [He|He]%elem_of_app Htm; [|by left]. right.
    destruct (resume_cases _ _ _ _ _ Hr)
      as [(_ & -> & _)|[(? & ? & _ & _ & _ & -> & _)|[(? & _ & _ & _ & -> & _)
         |[(-> & ? & -> & _)|(_ & _ & -> & _)]]]]; simpl in He;
      try (apply list_elem_of_singleton in He as ->; try done);
      try (by apply elem_of_nil in He).
    by exists j, t.
  - intros [->|He]%elem_of_cons; [done|by left].
Qed.

(** A request entry is either an old one, the first request of a new
    sequence, or the request of a timer that ran. *)
Lemma step_log_request w a w' e url :
  stepped w a w' → e ∈ log w' → what e = HttpGet url →
  e ∈ log w
  ∨ (∃ options uuid, a = Create options uuid
       ∧ e = mkEntry (clock w) (List.length (slots w))
               (HttpGet (fetch_uri uuid)))
  ∨ (∃ i t due, a = TimerFires i
       ∧ slots w !! i = Some (mkSlot t (Waiting due))
       ∧ e = mkEntry (clock w) i (HttpGet (fetch_uri (requestId t)))).
Proof.
  intros [dt|options uuid|j r t effects ph' Hj Hr|j t due Hj Hdue]; simpl.
  - by left.
  - intros [->|He]%elem_of_cons; [|by left]. intros _. right. left.
    by eexists _, _.
  - intros [He|He]%elem_of_app Hu; [|by left].
    destruct (resume_quiet _ _ _ _ _ _ _ Hr e He) as [Hq _].
    by rewrite Hu in Hq.
  - intros [->|He]%elem_of_cons; [|by left]. intros _. right. right.
    by eexists _, _, _.
Qed.

(** An entry that subscribers or the console see is either an old one or
    comes with the end of its sequence. *)
Lemma step_log_surfaced w a w' e :
  stepped w a w' → e ∈ log w' → is_surfaced (what e) = true →
  e ∈ log w
  ∨ ∃ s', slots w' !! by_slot e = Some s' ∧ finished (ph s') = true.
Proof.
  intros [dt|options uuid|j r t effects ph' Hj Hr|j t due Hj Hdue]; simpl.
  - by left.
  - intros [->|He]%elem_of_cons; [done|by left].
  - intros [He|He]%elem_of_app Hsf; [|by left]. right.
    exists (mkSlot t ph').
    destruct (resume_quiet _ _ _ _ _ _ _ Hr e He) as (_ & -> & _).
    split; [apply list_lookup_insert_eq; by eapply lookup_lt_Some|].
    destruct (resume_cases _ _ _ _ _ Hr)
      as [(_ & -> & ->)|[(? & ? & _ & _ & _ & -> & ->)|[(? & _ & _ & _ & -> & ->)
         |[(_ & _ & -> & ->)|(_ & _ & -> & ->)]]]]; simpl in *; try done.
    by apply list_elem_of_singleton in He as ->.
  - intros [->|He]%elem_of_cons; [done|by left].
Qed.

Lemma init_wf now : wf (init now).
Proof.
  split; simpl.
  - by intros e ?%elem_of_nil.
  - intros i s H. by rewrite lookup_nil in H.
  - by intros e s ?%elem_of_nil.
  - by intros e s url ?%elem_of_nil.
  - by intros e s ?%elem_of_nil.
Qed.

Lemma step_wf w a w' : wf w → stepped w a w' → wf w'.
Proof.
  intros Hwf Hstep. pose proof Hwf as [Hby Hslot Htimer Hurl Hsurf]. split.
  - intros e He. destruct (step_log _ _ _ Hstep) as (new & Hlog & Hnew).
    rewrite Hlog in He. apply elem_of_app in He as [He|He].
    + destruct (Hnew e He) as [Ht _].
      destruct Hstep as [dt|options uuid|j r t effects ph' Hj Hr|j t due Hj Hdue];
        simpl in *; try done; injection Ht as <-.
      * rewrite length_app. simpl. lia.
      * rewrite length_insert. by eapply lookup_lt_Some.
      * rewrite length_insert. by eapply lookup_lt_Some.
    + pose proof (Hby e He). pose proof (step_length _ _ _ Hstep). lia.
  - intros i s' Hs'. destruct (decide (target w a = Some i)) as [Ht|Ht].
    + destruct Hstep as [dt|options uuid|j r t effects ph' Hj Hr|j t due Hj Hdue];
        simpl in *; try done; injection Ht as <-.
      * rewrite lookup_app_r, Nat.sub_diag in Hs' by lia.
        injection Hs' as <-.
        rewrite requests_by_cons, decide_True by done. simpl.
        rewrite requests_by_fresh by done.
        unfold slot_ok, FETCH_INTERVAL. simpl. repeat split; lia.
      * rewrite list_lookup_insert_eq in Hs' by (by eapply lookup_lt_Some).
        injection Hs' as <-.
        rewrite requests_by_app_quiet
          by (intros e He; by destruct (resume_quiet _ _ _ _ _ _ _ Hr e He)).
        specialize (Hslot j _ Hj). unfold slot_ok in *.
        destruct (requests_by j (log w)) as [|latest older]; [done|].
        cbn [tk ph] in *. destruct Hslot as (H1 & H2 & H3 & H4 & _).
        refine (conj H1 (conj H2 (conj H3 (conj H4 _)))).
        destruct (resume_cases _ _ _ _ _ Hr)
          as [(_ & _ & ->)|[(? & ? & _ & _ & _ & _ & ->)|[(? & _ & _ & _ & _ & ->)
             |[(_ & ? & _ & ->)|(_ & _ & _ & ->)]]]]; try done.
        unfold FETCH_INTERVAL, FETCH_TIMEOUT in *. lia.
      * rewrite list_lookup_insert_eq in Hs' by (by eapply lookup_lt_Some).
        injection Hs' as <-.
        rewrite requests_by_cons, decide_True by done. cbn [what is_request].
        specialize (Hslot j _ Hj). unfold slot_ok in *.
        destruct (requests_by j (log w)) as [|latest older]; [done|].
        cbn [tk ph at_time] in *.
        destruct Hslot as (H1 & H2 & H3 & H4 & H5 & H6 & H7).
        cbn [spaced]. cbn [spaced] in H1.
        unfold FETCH_INTERVAL, FETCH_TIMEOUT in *. cbn [List.length].
        repeat split; try tauto; try lia.
    + destruct (step_frame _ _ _ i Hstep Ht) as [Hsl Hen].
      rewrite Hsl in Hs'. rewrite (requests_by_same _ _ _ Hen).
      eapply slot_ok_mono; [by eapply step_clock|]. by apply Hslot.
  - intros e s' He Htm Hs'.
    destruct (step_log_timer _ _ _ _ Hstep He Htm)
      as [Hold|(i & t & -> & Hi & -> & Hlt)].
    + destruct (lookup_lt_is_Some_2 (slots w) (by_slot e)) as [s Hs];
        [by apply Hby|].
      destruct (step_ticket _ _ _ _ _ Hstep Hs) as (s'' & Hs'' & Htk).
      rewrite Hs' in Hs''. injection Hs'' as <-. rewrite Htk. by apply Htimer.
    + destruct (step_ticket _ _ _ _ _ Hstep Hi) as (s'' & Hs'' & Htk).
      cbn [by_slot] in Hs'. rewrite Hs' in Hs''. injection Hs'' as <-.
      rewrite Htk. done.
  - intros e s' url He Hu Hs'.
    destruct (step_log_request _ _ _ _ _ Hstep He Hu)
      as [Hold|[(options & uuid & -> & ->)|(i & t & due & -> & Hi & ->)]].
    + destruct (lookup_lt_is_Some_2 (slots w) (by_slot e)) as [s Hs];
        [by apply Hby|].
      destruct (step_ticket _ _ _ _ _ Hstep Hs) as (s'' & Hs'' & Htk).
      rewrite Hs' in Hs''. injection Hs'' as <-. rewrite Htk. by eapply Hurl.
    + apply step_stepped in Hstep. simpl in Hstep. injection Hstep as <-.
      simpl in *. rewrite lookup_app_r, Nat.sub_diag in Hs' by lia.
      injection Hs' as <-. by injection Hu as <-.
    + destruct (step_ticket _ _ _ _ _ Hstep Hi) as (s'' & Hs'' & Htk).
      cbn [by_slot] in Hs'. rewrite Hs' in Hs''. injection Hs'' as <-.
      rewrite Htk. by injection Hu as <-.
  - intros e s' He Hsf Hs'.
    destruct (step_log_surfaced _ _ _ _ Hstep He Hsf)
      as [Hold|(s'' & Hs'' & Hfin)].
    + destruct (lookup_lt_is_Some_2 (slots w) (by_slot e)) as [[t p] Hs];
        [by apply Hby|].
      pose proof (Hsurf e _ Hold Hsf Hs) as Hfin. simpl in Hfin.
      destruct p as [| |x]; try done.
      pose proof (finished_not_target _ _ _ _ _ _ Hstep Hs) as Ht.
      destruct (step_frame _ _ _ _ Hstep Ht) as [Hsl _].
      rewrite Hsl, Hs in Hs'. by injection Hs' as <-.
    + rewrite Hs' in Hs''. by injection Hs'' as <-.
Qed.

Lemma run_wf w acts w' : wf w → run w acts = Some w' → wf w'.
Proof.
  revert w. induction acts as [|a acts IH]; intros w Hwf; simpl.
  - by intros [= <-].
  - destruct (step w a) as [w1|] eqn:Hstep; [|done].
    apply IH. eapply step_wf; [done|]. by apply step_stepped.
Qed.

Lemma fetch_uri_eq id :
  fetch_uri id
  = mkURI (scheme href) (authority href) "/fetch-callback"
      (REQUEST_ID +:+ "=" +:+ encodeURIComponent id) (fragment href).
Proof. unfold fetch_uri. by rewrite doCreateUri_query. Qed.

Lemma fetch_uri_inj id1 id2 : fetch_uri id1 = fetch_uri id2 → id1 = id2.
Proof.
  rewrite !fetch_uri_eq. intros [= H]. by apply encodeURIComponent_inj.
Qed.

Lemma run_stepped w a acts w' :
  run w (a :: acts) = Some w' ↔ ∃ w1, stepped w a w1 ∧ run w1 acts = Some w'.
Proof.
  simpl. split.
  - destruct (step w a) as [w1|] eqn:Hs; [|done].
    exists w1. by rewrite <- step_stepped.
  - intros (w1 & Hs%step_stepped & Hr). by rewrite Hs.
Qed.

(** A finished sequence stays as it is, and nothing more is logged for
    it. *)
Lemma finished_run w acts w' i t e :
  run w acts = Some w' → slots w !! i = Some (mkSlot t (Finished e)) →
  slots w' !! i = Some (mkSlot t (Finished e))
  ∧ ∃ new, log w' = new ++ log w ∧ ∀ x, x ∈ new → by_slot x ≠ i.
Proof.
  revert w. induction acts as [|a acts IH]; intros w.
  - intros [= <-] Hi. split; [done|]. exists []. split; [done|].
    by intros x ?%elem_of_nil.
  - intros (w1 & Hs & Hr)%run_stepped Hi.
    pose proof (finished_not_target _ _ _ _ _ _ Hs Hi) as Ht.
    destruct (step_frame _ _ _ i Hs Ht) as [Hsl _].
    rewrite <- Hsl in Hi. destruct (IH _ Hr Hi) as (Hi' & new2 & Hl2 & Hn2).
    split; [done|].
    destruct (step_log _ _ _ Hs) as (new1 & Hl1 & Hn1).
    exists (new2 ++ new1). split.
    + by rewrite Hl2, Hl1, app_assoc.
    + intros x [Hx|Hx]%elem_of_app; [by apply Hn2|].
      destruct (Hn1 x Hx) as [Hx' _]. congruence.
Qed.

(** With request ids that are unique, a request for the id of a sequence
    is a request by that sequence. *)
Lemma request_by_id w e i t p :
  wf w → NoDup (request_ids w) →
  slots w !! i = Some (mkSlot t p) →
  e ∈ log w → what e = HttpGet (fetch_uri (requestId t)) →
  by_slot e = i.
Proof.
  intros Hwf Hnd Hi He Hu.
  destruct (lookup_lt_is_Some_2 (slots w) (by_slot e)) as [s Hs];
    [by eapply wf_by|].
  pose proof (wf_url _ Hwf e s _ He Hu Hs) as Heq%fetch_uri_inj.
  eapply (NoDup_lookup _ _ _ _ Hnd); unfold request_ids.
  - rewrite list_lookup_fmap, Hs. simpl. by rewrite <- Heq.
  - by rewrite list_lookup_fmap, Hi.
Qed.

(** What a response with a non-empty body does to a sequence awaiting it,
    whatever the body parses to. *)
Lemma respond_data_terminal now0 acts0 w i t content :
  run (init now0) acts0 = Some w →
  slots w !! i = Some (mkSlot t Fetching) →
  content ≠ "" →
  ∃ w1 x e, step w (Respond i (Body content)) = Some w1
    ∧ match JSON_parse content with
      | Some uri => x = Fire uri ∧ e = Delivered
      | None => x = ConsoleError ∧ e = Dropped
      end
    ∧ log w1 = mkEntry (clock w) i x :: log w
    ∧ slots w1 !! i = Some (mkSlot t (Finished e))
    ∧ ∀ acts w2, run w1 acts = Some w2 →
        slots w2 !! i = Some (mkSlot t (Finished e))
        ∧ ∃ new, log w2 = new ++ log w1
            ∧ (∀ y, y ∈ new → by_slot y ≠ i)
            ∧ (NoDup (request_ids w2) →
               ∀ y, y ∈ new → what y ≠ HttpGet (fetch_uri (requestId t))).
Proof.
  intros Hreach Hi Hc.
  assert (Hlen : 0 < String.length content) by (destruct content; simpl; [done|lia]).
  assert (Hwf : wf w) by (eapply run_wf; [apply init_wf|done]).
  assert (∃ x e, periodicFetchCallback_resume t (Body content) (clock w)
                   = ([x], Finished e)
                 ∧ match JSON_parse content with
                   | Some uri => x = Fire uri ∧ e = Delivered
                   | None => x = ConsoleError ∧ e = Dropped
                   end) as (x & e & Hr & Hxe).
  { unfold periodicFetchCallback_resume. rewrite decide_True by done.
    destruct (JSON_parse content); eauto. }
  eexists _, x, e. split; [|split; [done|]].
  { unfold step. rewrite Hi, Hr. done. }
  simpl. split; [done|].
  assert (Hi1 : <[i := mkSlot t (Finished e)]> (slots w) !! i
                = Some (mkSlot t (Finished e))).
  { apply list_lookup_insert_eq. by eapply lookup_lt_Some. }
  split; [done|]. intros acts w2 Hrun.
  destruct (finished_run _ _ _ i t e Hrun Hi1) as (Hi2 & new & Hlog & Hnew).
  split; [done|]. exists new. split; [done|]. split; [done|].
  intros Hnd y Hy Hu. apply (Hnew y Hy).
  eapply request_by_id; [| |done| |done]; try done.
  - eapply run_wf; [|done]. eapply step_wf; [done|].
    apply (step_stepped w (Respond i (Body content))).
    unfold step. by rewrite Hi, Hr.
  - rewrite Hlog. apply elem_of_app. by left.
Qed.

Lemma unfinished_quiet w i s :
  wf w → slots w !! i = Some s → finished (ph s) = false →
  ∀ e, e ∈ log w → by_slot e = i → is_surfaced (what e) = false.
Proof.
  intros Hwf Hs Hfin e He <-.
  destruct (is_surfaced (what e)) eqn:Hsf; [|done].
  by rewrite (wf_surfaced _ Hwf e s He Hsf Hs) in Hfin.
Qed.

(** C1: when the response to a poll has a non-empty body that parses,
    [onCallback] fires once, with the parsed value (the sequence has not
    fired before), the sequence is over, and whatever happens afterwards
    nothing more is done on its behalf: in particular no request for its
    request id is issued again (request ids being unique). *)
Theorem delivery_fires_once_and_ends_polling now0 acts0 w i t content uri :
  run (init now0) acts0 = Some w →
  slots w !! i = Some (mkSlot t Fetching) →
  content ≠ "" → JSON_parse content = Some uri →
  (∀ e, e ∈ log w → by_slot e = i → is_surfaced (what e) = false)
  ∧ ∃ w1, step w (Respond i (Body content)) = Some w1
    ∧ log w1 = mkEntry (clock w) i (Fire uri) :: log w
    ∧ slots w1 !! i = Some (mkSlot t (Finished Delivered))
    ∧ ∀ acts w2, run w1 acts = Some w2 →
        slots w2 !! i = Some (mkSlot t (Finished Delivered))
        ∧ ∃ new, log w2 = new ++ log w1
            ∧ (∀ y, y ∈ new → by_slot y ≠ i)
            ∧ (NoDup (request_ids w2) →
               ∀ y, y ∈ new → what y ≠ HttpGet (fetch_uri (requestId t))).
Proof.
  intros Hreach Hi Hc Hp. split.
  - eapply unfinished_quiet; [|done|done].
    eapply run_wf; [apply init_wf|done].
  - destruct (respond_data_terminal _ _ _ _ _ _ Hreach Hi Hc)
      as (w1 & x & e & Hstep & Hxe & Hrest).
    rewrite Hp in Hxe. destruct Hxe as [-> ->]. by exists w1.
Qed.

(** C3: when the body is non-empty and does not parse, the error is caught
    and goes to the console (the step is taken, nothing is rejected),
    [onCallback] does not fire, and the sequence is over all the same: no
    request is issued for it again. *)
Theorem malformed_body_is_logged_and_ends_polling now0 acts0 w i t content :
  run (init now0) acts0 = Some w →
  slots w !! i = Some (mkSlot t Fetching) →
  content ≠ "" → JSON_parse content = None →
  ∃ w1, step w (Respond i (Body content)) = Some w1
    ∧ log w1 = mkEntry (clock w) i ConsoleError :: log w
    ∧ slots w1 !! i = Some (mkSlot t (Finished Dropped))
    ∧ ∀ acts w2, run w1 acts = Some w2 →
        slots w2 !! i = Some (mkSlot t (Finished Dropped))
        ∧ ∃ new, log w2 = new ++ log w1
            ∧ (∀ y, y ∈ new → by_slot y ≠ i)
            ∧ (NoDup (request_ids w2) →
               ∀ y, y ∈ new → what y ≠ HttpGet (fetch_uri (requestId t))).
Proof.
  intros Hreach Hi Hc Hp.
  destruct (respond_data_terminal _ _ _ _ _ _ Hreach Hi Hc)
    as (w1 & x & e & Hstep & Hxe & Hrest).
  rewrite Hp in Hxe. destruct Hxe as [-> ->]. by exists w1.
Qed.

Lemma step_no_data w a w' i e :
  stepped w a w' → no_data i a →
  e ∈ log w' → by_slot e = i → is_surfaced (what e) = true → e ∈ log w.
Proof.
  intros [dt|options uuid|j r t effects ph' Hj Hr|j t due Hj Hdue] Hnd; simpl.
  - done.
  - by intros [->|He]%elem_of_cons.
  - intros [He|He]%elem_of_app Hby Hsf; [|done]. exfalso.
    destruct (resume_quiet _ _ _ _ _ _ _ Hr e He) as (_ & Hj' & _).
    rewrite Hby in Hj'. subst j.
    destruct (resume_cases _ _ _ _ _ Hr)
      as [(_ & -> & _)|[(? & ? & -> & Hne & _)|[(? & -> & Hne & _)
         |[(_ & _ & -> & _)|(_ & _ & -> & _)]]]]; simpl in *;
      try (by apply Hne, Hnd);
      try (apply list_elem_of_singleton in He as ->; done).
    by apply elem_of_nil in He.
  - by intros [->|He]%elem_of_cons.
Qed.

Lemma run_no_data w acts w' i :
  run w acts = Some w' → Forall (no_data i) acts →
  ∀ e, e ∈ log w' → by_slot e = i → is_surfaced (what e) = true →
       e ∈ log w.
Proof.
  revert w. induction acts as [|a acts IH]; intros w.
  - by intros [= <-].
  - intros (w1 & Hs & Hr)%run_stepped [Ha Hacts]%Forall_cons e He Hby Hsf.
    eapply step_no_data; [done|done| |done|done]. by eapply IH.
Qed.

(** An empty body: the timer is set while the timeout has not passed, and
    otherwise the sequence ends without a trace. *)
Lemma respond_empty w i t :
  slots w !! i = Some (mkSlot t Fetching) →
  step w (Respond i (Body ""))
  = Some (if decide (clock w - startTime t < FETCH_TIMEOUT)%Z then
            mkWorld (clock w)
              (<[i := mkSlot t (Waiting (clock w + FETCH_INTERVAL))]> (slots w))
              (mkEntry (clock w) i (SetTimeout FETCH_INTERVAL) :: log w)
          else
            mkWorld (clock w) (<[i := mkSlot t (Finished Expired)]> (slots w))
              (log w)).
Proof.
  intros Hi. unfold step, periodicFetchCallback_resume. rewrite Hi. simpl.
  by case_decide.
Qed.

Lemma spaced_head (latest : Z) (older : list Z) :
  spaced (latest :: older) →
  ∀ b, b ∈ older → (b + FETCH_INTERVAL ≤ latest)%Z.
Proof.
  revert latest. induction older as [|t2 older IH]; intros latest.
  - by intros _ b ?%elem_of_nil.
  - intros [Hgap Hrest] b [->|Hb]%elem_of_cons; [done|].
    pose proof (IH t2 Hrest b Hb). unfold FETCH_INTERVAL in *. lia.
Qed.

(** Any two of the times are at least [FETCH_INTERVAL] apart. *)
Lemma spaced_lookup (ts : list Z) m n a b :
  spaced ts → m < n → ts !! m = Some a → ts !! n = Some b →
  (b + FETCH_INTERVAL ≤ a)%Z.
Proof.
  revert m n. induction ts as [|t ts IH]; intros m n Hsp Hmn; [done|].
  destruct n as [|n]; [lia|]. destruct m as [|m]; simpl.
  - intros [= <-] Hb. eapply spaced_head; [done|].
    by eapply list_elem_of_lookup_2.
  - apply IH; [by destruct Hsp|lia].
Qed.

(** C2 (as amended): the requests of a sequence are at least
    [FETCH_INTERVAL] apart and there are at most 601 of them; a timer for
    the next request is only ever set, with [FETCH_INTERVAL], while less
    than [FETCH_TIMEOUT] has passed since [startTime]; a sequence whose
    responses never carry a body neither fires nor logs; and once an empty
    body is seen with the timeout passed the sequence ends without any
    effect and nothing is done for it again. *)
Theorem polling_is_spaced_bounded_and_expires_silently now0 acts w i t p :
  run (init now0) acts = Some w →
  slots w !! i = Some (mkSlot t p) →
  (∀ m n a b, m < n →
     requests_by i (log w) !! m = Some a →
     requests_by i (log w) !! n = Some b → (b + FETCH_INTERVAL ≤ a)%Z)
  ∧ List.length (requests_by i (log w)) ≤ 601
  ∧ (∀ e, e ∈ log w → by_slot e = i → is_timer (what e) = true →
       what e = SetTimeout FETCH_INTERVAL
       ∧ (at_time e - startTime t < FETCH_TIMEOUT)%Z)
  ∧ (Forall (no_data i) acts →
     ∀ e, e ∈ log w → by_slot e = i → is_surfaced (what e) = false)
  ∧ (p = Fetching → (FETCH_TIMEOUT ≤ clock w - startTime t)%Z →
     ∃ w1, step w (Respond i (Body "")) = Some w1
       ∧ log w1 = log w
       ∧ ∀ acts' w2, run w1 acts' = Some w2 →
           slots w2 !! i = Some (mkSlot t (Finished Expired))
           ∧ ∃ new, log w2 = new ++ log w1
                    ∧ ∀ y, y ∈ new → by_slot y ≠ i).
Proof.
  intros Hreach Hi.
  assert (Hwf : wf w) by (eapply run_wf; [apply init_wf|done]).
  pose proof (wf_slot _ Hwf i _ Hi) as Hok. unfold slot_ok in Hok.
  split_and!.
  - intros m n a b. apply spaced_lookup.
    destruct (requests_by i (log w)); [done|]. by destruct Hok.
  - destruct (requests_by i (log w)) as [|latest older]; [done|].
    destruct Hok as (_ & _ & _ & Hlen & _). simpl. lia.
  - intros e He Hby Htm. subst i.
    by destruct (wf_timer _ Hwf e _ He Htm Hi).
  - intros Hnd e He Hby. destruct (is_surfaced (what e)) eqn:Hsf; [|done].
    by pose proof (run_no_data _ _ _ _ Hreach Hnd e He Hby Hsf)
      as ?%elem_of_nil.
  - intros -> Hexp. rewrite (respond_empty _ _ _ Hi).
    rewrite decide_False by lia. eexists. split; [done|]. split; [done|].
    intros acts' w2 Hrun. eapply finished_run; [done|]. simpl.
    apply list_lookup_insert_eq. by eapply lookup_lt_Some.
Qed.

(** The only step that ends a sequence is the response it awaits, and the
    response decides how. *)
Lemma ending_cause w a w' i t p e :
  stepped w a w' → slots w !! i = Some (mkSlot t p) → finished p = false →
  slots w' !! i = Some (mkSlot t (Finished e)) →
  ∃ r, a = Respond i r ∧ p = Fetching
       ∧ match e with
         | Delivered => ∃ content uri, r = Body content ∧ content ≠ ""
                                       ∧ JSON_parse content = Some uri
         | Dropped => ∃ content, r = Body content ∧ content ≠ ""
                                 ∧ JSON_parse content = None
         | Expired => r = Body ""
                      ∧ (FETCH_TIMEOUT ≤ clock w - startTime t)%Z
         | Failed => r = Rejected
         end.
Proof.
  intros Hstep Hi Hp Hi'.
  destruct (decide (target w a = Some i)) as [Ht|Ht].
  - destruct Hstep as [dt|options uuid|j r t' effects ph' Hj Hr|j t' due Hj Hdue];
      simpl in *; try done; injection Ht as <-.
    + apply lookup_lt_Some in Hi. lia.
    + rewrite Hi in Hj. injection Hj as <- ->.
      rewrite list_lookup_insert_eq in Hi' by (by eapply lookup_lt_Some).
      injection Hi' as ->. exists r. split; [done|]. split; [done|].
      destruct (resume_cases _ _ _ _ _ Hr)
        as [(-> & _ & [= ->])|[(? & ? & -> & ? & ? & _ & [= ->])
           |[(? & -> & ? & ? & _ & [= ->])|[(_ & _ & _ & [=])
           |(-> & ? & _ & [= ->])]]]]; eauto.
    + rewrite list_lookup_insert_eq in Hi' by (by eapply lookup_lt_Some).
      by injection Hi'.
  - destruct (step_frame _ _ _ i Hstep Ht) as [Hsl _].
    rewrite Hsl, Hi in Hi'. injection Hi' as ->. done.
Qed.

Lemma progress_bounds w i s :
  wf w → slots w !! i = Some s → 1 ≤ progress w i ≤ 1202.
Proof.
  intros Hwf Hi. pose proof (wf_slot _ Hwf i _ Hi) as Hok.
  unfold progress, slot_ok in *. rewrite Hi.
  destruct (requests_by i (log w)) as [|latest older]; [done|].
  destruct Hok as (_ & _ & _ & Hlen & _). simpl. destruct (ph s); lia.
Qed.

Lemma step_progress w a w' i s :
  wf w → stepped w a w' → slots w !! i = Some s →
  progress w' i = progress w i + (if targets i a then 1 else 0).
Proof.
  intros Hwf Hstep Hi. pose proof (wf_slot _ Hwf i _ Hi) as Hok.
  destruct (decide (target w a = Some i)) as [Ht|Ht].
  - destruct Hstep as [dt|options uuid|j r t effects ph' Hj Hr|j t due Hj Hdue];
      simpl in *; try done; injection Ht as <-.
    + apply lookup_lt_Some in Hi. lia.
    + rewrite bool_decide_true by done. unfold progress. simpl.
      rewrite list_lookup_insert_eq, Hj by (by eapply lookup_lt_Some).
      rewrite requests_by_app_quiet
        by (intros e He; by destruct (resume_quiet _ _ _ _ _ _ _ Hr e He)).
      rewrite Hj in Hi. injection Hi as <-. unfold slot_ok in Hok.
      destruct (requests_by j (log w)) as [|latest older]; [done|].
      destruct (resume_cases _ _ _ _ _ Hr)
        as [(_ & _ & ->)|[(? & ? & _ & _ & _ & _ & ->)|[(? & _ & _ & _ & _ & ->)
           |[(_ & _ & _ & ->)|(_ & _ & _ & ->)]]]]; simpl; lia.
    + rewrite bool_decide_true by done. unfold progress. simpl.
      rewrite list_lookup_insert_eq, Hj by (by eapply lookup_lt_Some).
      rewrite requests_by_cons, decide_True by done. simpl. lia.
  - destruct (step_frame _ _ _ i Hstep Ht) as [Hsl Hen].
    unfold progress. rewrite Hsl, (requests_by_same _ _ _ Hen).
    destruct a as [dt|options uuid|j r|j]; simpl in *;
      try rewrite bool_decide_false by congruence; lia.
Qed.

(** Every response and timer of a sequence moves it on by one, and it
    cannot move more than 1202 times. *)
Lemma run_progress w acts w' i s :
  wf w → run w acts = Some w' → slots w !! i = Some s →
  progress w' i
  = progress w i + List.length (filter (λ a, targets i a = true) acts).
Proof.
  revert w s. induction acts as [|a acts IH]; intros w s Hwf.
  - intros [= <-] _. simpl. lia.
  - intros (w1 & Hs & Hr)%run_stepped Hi.
    destruct (step_ticket _ _ _ _ _ Hs Hi) as (s1 & Hi1 & _).
    assert (Hwf1 : wf w1) by (by eapply step_wf).
    rewrite (IH w1 s1 Hwf1 Hr Hi1).
    rewrite (step_progress _ _ _ _ _ Hwf Hs Hi), filter_cons.
    destruct (targets i a); simpl; try case_decide; simpl; try done; lia.
Qed.

(** C4 (as amended): a sequence that is not over ends only by the response
    it awaits: with a non-empty body ([Delivered] or [Dropped]), with an
    empty body once the timeout has passed ([Expired]), or with the
    rejection of the request ([Failed]); which of these is decided by the
    response alone.  Once over it stays over, the same way, and nothing
    more is done for it.  It takes part in at most 1201 responses and
    timers after its [create], and while it is not over the response it
    awaits, or after the wait the timer, can always happen. *)
Theorem poll_sequence_ends_once now0 acts0 w i t p :
  run (init now0) acts0 = Some w →
  slots w !! i = Some (mkSlot t p) →
  (∀ a w' e, step w a = Some w' → finished p = false →
     slots w' !! i = Some (mkSlot t (Finished e)) →
     ∃ r, a = Respond i r ∧ p = Fetching
          ∧ match e with
            | Delivered => ∃ content uri, r = Body content ∧ content ≠ ""
                                          ∧ JSON_parse content = Some uri
            | Dropped => ∃ content, r = Body content ∧ content ≠ ""
                                    ∧ JSON_parse content = None
            | Expired => r = Body ""
                         ∧ (FETCH_TIMEOUT ≤ clock w - startTime t)%Z
            | Failed => r = Rejected
            end)
  ∧ (∀ e acts w', p = Finished e → run w acts = Some w' →
       slots w' !! i = Some (mkSlot t (Finished e))
       ∧ ∃ new, log w' = new ++ log w ∧ ∀ y, y ∈ new → by_slot y ≠ i)
  ∧ (∀ acts w', run w acts = Some w' →
       List.length (filter (λ a, targets i a = true) acts) ≤ 1201)
  ∧ (p = Fetching → ∀ r, is_Some (step w (Respond i r)))
  ∧ (∀ due, p = Waiting due → ∀ dt : N, (due ≤ clock w + Z.of_N dt)%Z →
       is_Some (run w [Tick dt; TimerFires i])).
Proof.
  intros Hreach Hi.
  assert (Hwf : wf w) by (eapply run_wf; [apply init_wf|done]).
  split_and!.
  - intros a w' e Hstep%step_stepped Hp Hi'. by eapply ending_cause.
  - intros e acts w' -> Hrun. by eapply finished_run.
  - intros acts w' Hrun.
    pose proof (run_progress _ _ _ _ _ Hwf Hrun Hi) as Heq.
    pose proof (progress_bounds _ _ _ Hwf Hi).
    assert (Hwf' : wf w') by by eapply run_wf.
    assert (∃ s', slots w' !! i = Some s') as [s' Hi'].
    { apply lookup_lt_is_Some_2.
      apply lookup_lt_Some in Hi.
      clear -Hrun Hi. revert w Hrun Hi.
      induction acts as [|a acts IH]; intros w; [by intros [= <-]|].
      intros (w1 & Hs & Hr)%run_stepped Hlt. apply (IH _ Hr).
      pose proof (step_length _ _ _ Hs). lia. }
    pose proof (progress_bounds _ _ _ Hwf' Hi'). lia.
  - intros -> r. unfold step. rewrite Hi.
    by destruct (periodicFetchCallback_resume t r (clock w)).
  - intros due -> dt Hdue. simpl. rewrite Hi. by rewrite decide_True.
Qed.

Lemma agree_step i w w1 a :
  agree_but i w w1 → i < List.length (slots w) → targets i a = false →
  match step w a, step w1 a with
  | Some w2, Some w2' => agree_but i w2 w2' ∧ i < List.length (slots w2)
  | None, None => True
  | _, _ => False
  end.
Proof.
  intros (Hc & Hl & Hk) Hi Ha.
  destruct a as [dt|options uuid|j r|j]; simpl in *.
  - split; [|done]. unfold agree_but. simpl. by rewrite Hc.
  - split; [|rewrite length_app; lia]. unfold agree_but. simpl.
    rewrite !length_app, Hl, Hc. split; [done|]. split; [done|].
    intros k Hne. destruct (Hk k Hne) as [Hs He]. split.
    + destruct (decide (k < List.length (slots w))).
      * rewrite !lookup_app_l by lia. done.
      * rewrite !lookup_app_r by lia. by rewrite Hl.
    + by rewrite !entries_by_cons, He.
  - apply bool_decide_eq_false in Ha. destruct (Hk j Ha) as [Hs He].
    rewrite Hs, Hc. destruct (slots w !! j) as [[t [|due|e]]|] eqn:Hj; try done.
    destruct (periodicFetchCallback_resume t r (clock w)) as [effects ph'].
    cbn beta iota.
    split; [|simpl; by rewrite length_insert]. unfold agree_but. simpl.
    rewrite !length_insert. split; [done|]. split; [done|].
    intros k Hne. destruct (Hk k Hne) as [Hs' He']. split.
    + destruct (decide (k = j)) as [->|].
      * rewrite !list_lookup_insert_eq; [done| |].
        -- by eapply lookup_lt_Some.
        -- rewrite Hl. by eapply lookup_lt_Some.
      * by rewrite !list_lookup_insert_ne.
    + by rewrite !entries_by_app, He'.
  - apply bool_decide_eq_false in Ha. destruct (Hk j Ha) as [Hs He].
    rewrite Hs, Hc. destruct (slots w !! j) as [[t [|due|e]]|] eqn:Hj; try done.
    case_decide; [|done].
    split; [|simpl; by rewrite length_insert]. unfold agree_but. simpl.
    rewrite !length_insert. split; [done|]. split; [done|].
    intros k Hne. destruct (Hk k Hne) as [Hs' He']. split.
    + destruct (decide (k = j)) as [->|].
      * rewrite !list_lookup_insert_eq; [done| |].
        -- by eapply lookup_lt_Some.
        -- rewrite Hl. by eapply lookup_lt_Some.
      * by rewrite !list_lookup_insert_ne.
    + by rewrite !entries_by_cons, He'.
Qed.

Lemma agree_run i acts w w1 :
  agree_but i w w1 → i < List.length (slots w) →
  Forall (λ a, targets i a = false) acts →
  match run w acts, run w1 acts with
  | Some w2, Some w2' => agree_but i w2 w2'
  | None, None => True
  | _, _ => False
  end.
Proof.
  revert w w1. induction acts as [|a acts IH]; intros w w1 Hag Hi; [done|].
  intros [Ha Hacts]%Forall_cons. simpl.
  pose proof (agree_step i w w1 a Hag Hi Ha) as Hstep.
  destruct (step w a) as [w2|], (step w1 a) as [w2'|]; try done.
  destruct Hstep as [Hag2 Hi2]. by apply IH.
Qed.

(** C6: a response to sequence [i] (a delivery in particular) leaves every
    other sequence [j] as it was: the same ticket ([requestId] and
    [startTime]), the same phase with the same due time, the same clock,
    nothing logged for it; and whatever the environment does next to the
    sequences other than [i], it can do in both worlds alike, with the same
    outcome for every one of them. *)
Theorem response_leaves_other_sequences_alone w i j r sB w1 :
  i ≠ j →
  slots w !! j = Some sB →
  step w (Respond i r) = Some w1 →
  slots w1 !! j = Some sB
  ∧ clock w1 = clock w
  ∧ entries_by j (log w1) = entries_by j (log w)
  ∧ ∀ acts, Forall (λ a, targets i a = false) acts →
      match run w acts, run w1 acts with
      | Some w2, Some w2' =>
          clock w2' = clock w2
          ∧ ∀ k, k ≠ i → slots w2' !! k = slots w2 !! k
                         ∧ entries_by k (log w2') = entries_by k (log w2)
      | None, None => True
      | _, _ => False
      end.
Proof.
  intros Hne Hj Hstep%step_stepped.
  assert (Ht : ∀ k, k ≠ i → target w (Respond i r) ≠ Some k)
    by (intros k Hk; simpl; congruence).
  destruct (step_frame _ _ _ j Hstep (Ht j (not_eq_sym Hne))) as [Hsl Hen].
  pose proof (step_clock_same _ _ _ Hstep) as Hc.
  split_and!; [by rewrite Hsl|by apply Hc|done|].
  intros acts Hacts.
  assert (Hag : agree_but i w w1).
  { split; [by apply Hc|]. split.
    - inversion Hstep; subst; simpl. by rewrite length_insert.
    - intros k Hk. by apply step_frame with (a := Respond i r); [|apply Ht]. }
  assert (Hi : i < List.length (slots w)).
  { inversion Hstep; subst. by eapply lookup_lt_Some. }
  pose proof (agree_run i acts w w1 Hag Hi Hacts) as Hrun.
  destruct (run w acts) as [w2|], (run w1 acts) as [w2'|]; try done.
  destruct Hrun as (? & _ & ?). done.
Qed.

(** *** More on the redirect and the poll request *)

Lemma decode_encoded (m : Map) :
  (λ kv, (kv.1, decodeURIComponent kv.2)) <$> encoded m = m.
Proof.
  unfold encoded. induction m as [|[k v] m IH]; [done|].
  rewrite !fmap_cons, IH. simpl. by rewrite decode_encodeURIComponent.
Qed.

(** X23: for a map that is not empty and whose keys have neither [&] nor
    [=], [doCreateUri] gives the current location with the path replaced
    and a query that reads back as the entries of the map, in order, with
    URL-encoded values, which decode to the values given, whatever bytes
    they hold; for the empty map it keeps the query of the location. *)
Theorem doCreateUri_renders_the_map path' (m : Map) :
  m ≠ [] →
  Forall (λ kv, string_forall plain kv.1 = true) m →
  let u := doCreateUri path' m in
  scheme u = scheme href ∧ authority u = authority href
  ∧ fragment u = fragment href ∧ path u = path'
  ∧ query_params (query u) = encoded m
  ∧ (λ kv, (kv.1, decodeURIComponent kv.2)) <$> query_params (query u) = m
  ∧ query (doCreateUri path' []) = query href.
Proof.
  intros Hne Hkeys. cbv zeta. rewrite doCreateUri_query by done.
  cbn [scheme authority fragment path query].
  assert (Hq : query_params (join_params (encoded m)) = encoded m).
  { apply query_params_join; [by destruct m|].
    unfold encoded. apply Forall_fmap.
    eapply Forall_impl; [done|]. intros [k v] Hk.
    split; [done|apply encodeURIComponent_plain]. }
  rewrite Hq, decode_encoded. by repeat split.
Qed.

(** X10: URL-decoding the parameters of the URI [create] returns gives
    back the request id and every component given with a non-empty value,
    unchanged and in the order [create] looks at them. *)
Theorem create_uri_decodes_to_the_options options id :
  (λ kv, (kv.1, decodeURIComponent kv.2))
    <$> query_params (query (create_uri options id))
  = (REQUEST_ID, id) :: given (default empty_options options).
Proof. by rewrite create_uri_query_params, decode_encoded. Qed.

(** X11: the URI polled for a request id is [/fetch-callback] on the
    current origin with the single parameter [vscode-requestId], the very
    parameter the redirect URI of that id starts with; different ids are
    polled at different URIs. *)
Theorem fetch_uri_carries_the_request_id options id :
  scheme (fetch_uri id) = scheme href
  ∧ authority (fetch_uri id) = authority href
  ∧ path (fetch_uri id) = "/fetch-callback"
  ∧ query_params (query (fetch_uri id))
      = [(REQUEST_ID, encodeURIComponent id)]
  ∧ head (query_params (query (create_uri options id)))
      = head (query_params (query (fetch_uri id)))
  ∧ (∀ id', fetch_uri id = fetch_uri id' → id = id').
Proof.
  assert (Hq : query_params (query (fetch_uri id))
               = [(REQUEST_ID, encodeURIComponent id)]).
  { rewrite fetch_uri_eq. cbn [query].
    apply (query_params_join [(REQUEST_ID, encodeURIComponent id)]); [done|].
    apply Forall_singleton. split; [done|apply encodeURIComponent_plain]. }
  rewrite create_uri_query_params, Hq, fetch_uri_eq.
  split_and!; try done. apply fetch_uri_inj.
Qed.

Lemma run_ticket w acts w' i s :
  run w acts = Some w' → slots w !! i = Some s →
  ∃ s', slots w' !! i = Some s' ∧ tk s' = tk s.
Proof.
  revert w s. induction acts as [|a acts IH]; intros w s.
  - intros [= <-] Hi. eauto.
  - intros (w1 & Hs & Hr)%run_stepped Hi.
    destruct (step_ticket _ _ _ _ _ Hs Hi) as (s1 & Hi1 & Htk).
    destruct (IH _ _ Hr Hi1) as (s' & Hi' & Htk'). exists s'.
    split; [done|congruence].
Qed.

(** X12: in every run, a request found in the log was issued by a
    sequence that exists, for the request id of that sequence, at
    [/fetch-callback]; and the sequence keeps its ticket ([requestId],
    [startTime]) whatever happens later. *)
Theorem requests_carry_their_ticket now0 acts w e url :
  run (init now0) acts = Some w →
  e ∈ log w → what e = HttpGet url →
  ∃ s, slots w !! by_slot e = Some s
     ∧ url = fetch_uri (requestId (tk s))
     ∧ path url = "/fetch-callback"
     ∧ query url = REQUEST_ID +:+ "=" +:+ encodeURIComponent (requestId (tk s))
     ∧ ∀ acts' w', run w acts' = Some w' →
         ∃ s', slots w' !! by_slot e = Some s' ∧ tk s' = tk s.
Proof.
  intros Hreach He Hu.
  assert (Hwf : wf w) by (eapply run_wf; [apply init_wf|done]).
  destruct (lookup_lt_is_Some_2 (slots w) (by_slot e)) as [s Hs];
    [by eapply wf_by|].
  exists s. pose proof (wf_url _ Hwf e s url He Hu Hs) as ->.
  rewrite fetch_uri_eq. split_and!; try done.
  intros acts' w' Hrun. by eapply run_ticket.
Qed.

Lemma run_invariant (P : world → Prop) :
  (∀ w a w', wf w → P w → stepped w a w' → P w') →
  ∀ acts w w', wf w → P w → run w acts = Some w' → P w'.
Proof.
  intros Hstep. induction acts as [|a acts IH]; intros w w' Hwf HP.
  - by intros [= <-].
  - intros (w1 & Hs & Hr)%run_stepped.
    apply (IH w1); [by eapply step_wf|by eapply Hstep|done].
Qed.

Lemma surfaced_by_cons i e l :
  surfaced_by i (e :: l)
  = if decide (by_slot e = i) then
      if is_surfaced (what e) then what e :: surfaced_by i l
      else surfaced_by i l
    else surfaced_by i l.
Proof.
  unfold surfaced_by. rewrite entries_by_cons.
  case_decide; [|done]. rewrite filter_cons.
  destruct (is_surfaced (what e)); by case_decide.
Qed.

Lemma surfaced_by_same i l l' :
  entries_by i l' = entries_by i l → surfaced_by i l' = surfaced_by i l.
Proof. unfold surfaced_by. by intros ->. Qed.

Lemma step_surfaced_by_phase w a w' :
  wf w → surfaced_by_phase w → stepped w a w' → surfaced_by_phase w'.
Proof.
  intros Hwf Hinv Hstep i s' Hs'.
  destruct (decide (target w a = Some i)) as [Ht|Ht].
  - destruct Hstep as [dt|options uuid|j r t effects ph' Hj Hr|j t due Hj Hdue];
      simpl in *; try done; injection Ht as <-.
    + rewrite lookup_app_r, Nat.sub_diag in Hs' by lia. injection Hs' as <-.
      rewrite surfaced_by_cons, decide_True by done. simpl.
      unfold surfaced_by. rewrite entries_by_other; [done|].
      intros e He. pose proof (wf_by _ Hwf e He). lia.
    + rewrite list_lookup_insert_eq in Hs' by (by eapply lookup_lt_Some).
      injection Hs' as <-. pose proof (Hinv j _ Hj) as Hold. simpl in Hold.
      destruct (resume_cases _ _ _ _ _ Hr)
        as [(_ & -> & ->)|[(? & uri & _ & _ & _ & -> & ->)|[(? & _ & _ & _ & -> & ->)
           |[(_ & _ & -> & ->)|(_ & _ & -> & ->)]]]]; simpl;
        rewrite ?surfaced_by_cons, ?decide_True by done; simpl;
        rewrite Hold; eauto.
    + rewrite list_lookup_insert_eq in Hs' by (by eapply lookup_lt_Some).
      injection Hs' as <-. pose proof (Hinv j _ Hj) as Hold. simpl in Hold.
      rewrite surfaced_by_cons, decide_True by done. done.
  - destruct (step_frame _ _ _ i Hstep Ht) as [Hsl Hen].
    rewrite Hsl in Hs'. rewrite (surfaced_by_same _ _ _ Hen). by apply Hinv.
Qed.

(** X13: over its whole life a sequence fires [onCallback] once if it
    ended with a delivery, writes one error to the console (and fires
    nothing) if it ended on a body that did not parse, and otherwise,
    whether still polling, expired or rejected, has done neither. *)
Theorem sequence_surfaces_what_its_phase_says now0 acts w i t p :
  run (init now0) acts = Some w →
  slots w !! i = Some (mkSlot t p) →
  match p with
  | Finished Delivered => ∃ uri, surfaced_by i (log w) = [Fire uri]
  | Finished Dropped => surfaced_by i (log w) = [ConsoleError]
  | _ => surfaced_by i (log w) = []
  end.
Proof.
  intros Hreach Hi.
  assert (Hinv : surfaced_by_phase w).
  { eapply (run_invariant surfaced_by_phase step_surfaced_by_phase);
      [apply init_wf| |done].
    intros j s Hj. simpl in Hj. by rewrite lookup_nil in Hj. }
  apply (Hinv i _ Hi).
Qed.

Lemma step_started_at_creation w a w' :
  wf w → started_at_creation w → stepped w a w' → started_at_creation w'.
Proof.
  intros Hwf Hinv Hstep i s' Hs'.
  destruct (decide (target w a = Some i)) as [Ht|Ht].
  - destruct Hstep as [dt|options uuid|j r t effects ph' Hj Hr|j t due Hj Hdue];
      simpl in *; try done; injection Ht as <-.
    + rewrite lookup_app_r, Nat.sub_diag in Hs' by lia. injection Hs' as <-.
      rewrite requests_by_cons, decide_True by done. simpl.
      by rewrite requests_by_fresh.
    + rewrite list_lookup_insert_eq in Hs' by (by eapply lookup_lt_Some).
      injection Hs' as <-.
      rewrite requests_by_app_quiet
        by (intros e He; by destruct (resume_quiet _ _ _ _ _ _ _ Hr e He)).
      apply (Hinv j _ Hj).
    + rewrite list_lookup_insert_eq in Hs' by (by eapply lookup_lt_Some).
      injection Hs' as <-.
      rewrite requests_by_cons, decide_True by done. simpl.
      pose proof (Hinv j _ Hj) as Hold. simpl in Hold.
      destruct (requests_by j (log w)) as [|latest older]; [done|].
      by rewrite last_cons_cons.
  - destruct (step_frame _ _ _ i Hstep Ht) as [Hsl Hen].
    rewrite Hsl in Hs'. rewrite (requests_by_same _ _ _ Hen). by apply Hinv.
Qed.

Lemma spaced_last (ts : list Z) (oldest : Z) :
  spaced ts → last ts = Some oldest → ∀ a, a ∈ ts → (oldest ≤ a)%Z.
Proof.
  induction ts as [|t ts IH]; [done|]. intros Hsp Hlast a.
  destruct ts as [|t2 ts].
  - injection Hlast as <-. by intros ->%list_elem_of_singleton.
  - rewrite last_cons_cons in Hlast.
    intros [->|Ha]%elem_of_cons.
    + pose proof (IH (proj2 Hsp) Hlast t2 ltac:(left)) as H2.
      destruct Hsp as [Hgap _]. unfold FETCH_INTERVAL in *. lia.
    + by apply (IH (proj2 Hsp) Hlast).
Qed.

(** X14: a sequence polls for the first time at its creation: the oldest
    of its requests was issued at [startTime], and every one of its
    requests between [startTime] and the present. *)
Theorem polling_starts_at_creation now0 acts w i t p :
  run (init now0) acts = Some w →
  slots w !! i = Some (mkSlot t p) →
  last (requests_by i (log w)) = Some (startTime t)
  ∧ ∀ a, a ∈ requests_by i (log w) → (startTime t ≤ a ≤ clock w)%Z.
Proof.
  intros Hreach Hi.
  assert (Hwf : wf w) by (eapply run_wf; [apply init_wf|done]).
  assert (Hinv : started_at_creation w).
  { eapply (run_invariant started_at_creation step_started_at_creation);
      [apply init_wf| |done].
    intros j s Hj. simpl in Hj. by rewrite lookup_nil in Hj. }
  pose proof (Hinv i _ Hi) as Hlast. simpl in Hlast. split; [done|].
  pose proof (wf_slot _ Hwf i _ Hi) as Hok. unfold slot_ok in Hok.
  intros a Ha. split.
  - destruct (requests_by i (log w)) as [|latest older] eqn:E; [done|].
    eapply spaced_last; [|done|done]. by destruct Hok.
  - destruct (requests_by i (log w)) as [|latest older] eqn:E; [done|].
    destruct Hok as (Hsp & Hnow & _).
    apply elem_of_cons in Ha as [->|Ha]; [done|].
    pose proof (spaced_head _ _ Hsp a Ha). unfold FETCH_INTERVAL in *. lia.
Qed.

(** X15: when the request of a sequence is rejected, the rejection is left
    unhandled, nothing is fired or logged to the console, and the sequence
    is over: whatever happens afterwards, nothing more is done for it. *)
Theorem rejected_request_ends_polling w i t :
  slots w !! i = Some (mkSlot t Fetching) →
  ∃ w1, step w (Respond i Rejected) = Some w1
    ∧ log w1 = mkEntry (clock w) i UnhandledRejection :: log w
    ∧ slots w1 !! i = Some (mkSlot t (Finished Failed))
    ∧ ∀ acts w2, run w1 acts = Some w2 →
        slots w2 !! i = Some (mkSlot t (Finished Failed))
        ∧ ∃ new, log w2 = new ++ log w1 ∧ ∀ y, y ∈ new → by_slot y ≠ i.
Proof.
  intros Hi. eexists. split; [unfold step; by rewrite Hi|].
  cbn [log slots]. split; [done|].
  assert (Hi1 : <[i := mkSlot t (Finished Failed)]> (slots w) !! i
                = Some (mkSlot t (Finished Failed))).
  { apply list_lookup_insert_eq. by eapply lookup_lt_Some. }
  split; [done|]. intros acts w2 Hrun.
  apply (finished_run _ _ _ i t Failed Hrun Hi1).
Qed.

(** X16: an empty body seen before the timeout sets one timer; when the
    timer runs, [FETCH_INTERVAL] or more later, the sequence requests the
    same URI again and is back where it was, awaiting the response; before
    that the timer does not run. *)
Theorem empty_body_polls_again w i t (dt : N) :
  slots w !! i = Some (mkSlot t Fetching) →
  (clock w - startTime t < FETCH_TIMEOUT)%Z →
  run w [Respond i (Body ""); Tick dt; TimerFires i]
  = if decide (FETCH_INTERVAL ≤ Z.of_N dt)%Z then
      Some (mkWorld (clock w + Z.of_N dt) (slots w)
              (mkEntry (clock w + Z.of_N dt) i
                 (HttpGet (fetch_uri (requestId t)))
               :: mkEntry (clock w) i (SetTimeout FETCH_INTERVAL) :: log w))
    else None.
Proof.
  intros Hi Hlt. cbn [run]. rewrite (respond_empty _ _ _ Hi).
  rewrite decide_True by done. cbn [step clock slots log].
  rewrite list_lookup_insert_eq by (by eapply lookup_lt_Some).
  case_decide; case_decide; try lia; [|done].
  by rewrite list_insert_insert_eq, list_insert_id.
Qed.

End Provider.

(** *** A provider at a concrete location *)

Definition here : URI := mkURI "https" "vscode.example" "/" "" "".

(** A stand-in for [JSON.parse] on the two bodies the examples use: the
    empty object parses (to itself), anything else throws. *)
Definition parse_object (s : string) : option string :=
  if decide (s = "{}") then Some s else None.

Definition vscode_bar : PartialUriComponents :=
  mkPartial (Some "vscode") None (Some "/bar") None None.

Definition empty_scheme : PartialUriComponents :=
  mkPartial (Some "") None (Some "/bar") None None.

(** The world after one [create]. *)
Definition one_ticket : world (Payload := string) :=
  mkWorld 0 [mkSlot (mkTicket "id" 0) Fetching]
    [mkEntry 0 0 (HttpGet (fetch_uri here "id"))].

(** Two tickets, the second created 100 ms after the first. *)
Definition two_tickets : world (Payload := string) :=
  mkWorld 100
    [mkSlot (mkTicket "a" 0) Fetching; mkSlot (mkTicket "b" 100) Fetching]
    [mkEntry 100 1 (HttpGet (fetch_uri here "b"));
     mkEntry 0 0 (HttpGet (fetch_uri here "a"))].

(** A response that takes 299,999 ms, then the timer. *)
Definition slow_response : list action :=
  [Create None "id"; Tick 299999; Respond 0 (Body ""); Tick 500; TimerFires 0].

Example create_uri_vscode_bar :
  create_uri here (Some vscode_bar) "id"
  = mkURI "https" "vscode.example" "/callback"
      "vscode-requestId=id&vscode-scheme=vscode&vscode-path=%2Fbar" "".
Proof. reflexivity. Qed.

Example create_uri_no_options :
  create_uri here None "0b4e" = mkURI "https" "vscode.example" "/callback"
                                  "vscode-requestId=0b4e" "".
Proof. reflexivity. Qed.

Example encodeURIComponent_reserved :
  encodeURIComponent "a b&c=d/e?f#g" = "a%20b%26c%3Dd%2Fe%3Ff%23g".
Proof. reflexivity. Qed.

Example run_one_ticket :
  run here parse_object (init 0) [Create None "id"] = Some one_ticket.
Proof. reflexivity. Qed.

Example run_two_tickets :
  run here parse_object (init 0) [Create None "a"; Tick 100; Create None "b"]
  = Some two_tickets.
Proof. reflexivity. Qed.

(** C5, the claim as stated, fails: a scheme given as the empty string is a
    component supplied in the options, and the URI has no [vscode-scheme]
    parameter for it. *)
Lemma create_supplied_empty_scheme_has_no_parameter :
  is_Some (get_component CScheme empty_scheme)
  ∧ query (create_uri here (Some empty_scheme) "id")
    = "vscode-requestId=id&vscode-path=%2Fbar"
  ∧ ¬ ∃ v, (key_of CScheme, v)
             ∈ query_params (query (create_uri here (Some empty_scheme) "id")).
Proof.
  split; [by eexists|]. split; [reflexivity|].
  intros [v Hv]. vm_compute in Hv.
  apply elem_of_cons in Hv as [[=]|Hv].
  apply elem_of_cons in Hv as [[=]|Hv].
  by apply elem_of_nil in Hv.
Qed.

(** C2, the claim as stated, fails: the server never returns a body, and a
    poll request is issued 300,499 ms after [startTime]. *)
Lemma request_issued_after_the_timeout :
  ∃ w, run here parse_object (init 0) slow_response = Some w
    ∧ Forall (no_data 0) slow_response
    ∧ slots w !! 0 = Some (mkSlot (mkTicket "id" 0) Fetching)
    ∧ log w !! 0 = Some (mkEntry 300499 0 (HttpGet (fetch_uri here "id")))
    ∧ (FETCH_TIMEOUT ≤ 300499 - startTime (mkTicket "id" 0))%Z.
Proof.
  eexists. split; [reflexivity|]. split; [|done].
  repeat constructor; simpl; done.
Qed.

(** C4, the claim as stated, fails: the sequence is over after 10 ms
    without any body having been received. *)
Lemma rejected_request_ends_the_sequence :
  ∃ w, run here parse_object (init 0)
         [Create None "id"; Tick 10; Respond 0 Rejected] = Some w
    ∧ slots w !! 0 = Some (mkSlot (mkTicket "id" 0) (Finished Failed))
    ∧ log w = [mkEntry 10 0 UnhandledRejection;
               mkEntry 0 0 (HttpGet (fetch_uri here "id"))]
    ∧ (clock w - startTime (mkTicket "id" 0) < FETCH_TIMEOUT)%Z.
Proof. eexists. by repeat split. Qed.

(** C1 at the first response of a ticket: the body [{}] parses. *)
Lemma delivery_fires_once_and_ends_polling_witness :
  run here parse_object (init 0) [Create None "id"] = Some one_ticket
  ∧ parse_object "{}" = Some "{}"
  ∧ ∃ w1, step here parse_object one_ticket (Respond 0 (Body "{}")) = Some w1
      ∧ log w1 = mkEntry 0 0 (Fire "{}") :: log one_ticket
      ∧ slots w1 !! 0 = Some (mkSlot (mkTicket "id" 0) (Finished Delivered)).
Proof.
  split; [reflexivity|]. split; [reflexivity|].
  destruct (delivery_fires_once_and_ends_polling here parse_object
              0 [Create None "id"] one_ticket 0 (mkTicket "id" 0) "{}" "{}")
    as (_ & w1 & H1 & H2 & H3 & _);
    [reflexivity|reflexivity|discriminate|reflexivity|].
  by exists w1.
Defined.

(** C3 at the first response of a ticket: the body [oops] does not parse. *)
Lemma malformed_body_is_logged_and_ends_polling_witness :
  parse_object "oops" = None
  ∧ ∃ w1, step here parse_object one_ticket (Respond 0 (Body "oops")) = Some w1
      ∧ log w1 = mkEntry 0 0 ConsoleError :: log one_ticket
      ∧ slots w1 !! 0 = Some (mkSlot (mkTicket "id" 0) (Finished Dropped)).
Proof.
  split; [reflexivity|].
  destruct (malformed_body_is_logged_and_ends_polling here parse_object
              0 [Create None "id"] one_ticket 0 (mkTicket "id" 0) "oops")
    as (w1 & H1 & H2 & H3 & _);
    [reflexivity|reflexivity|discriminate|reflexivity|].
  by exists w1.
Defined.

(** C2 (as amended) on the slow response: two requests, 300,499 ms apart. *)
Lemma polling_is_spaced_bounded_and_expires_silently_witness :
  ∃ w, run here parse_object (init 0) slow_response = Some w
    ∧ requests_by 0 (log w) = [300499; 0]%Z
    ∧ (0 + FETCH_INTERVAL ≤ 300499)%Z
    ∧ List.length (requests_by 0 (log w)) ≤ 601.
Proof.
  eexists. split; [reflexivity|]. split; [reflexivity|].
  destruct (polling_is_spaced_bounded_and_expires_silently here parse_object
              0 slow_response _ 0 (mkTicket "id" 0) Fetching
              eq_refl eq_refl) as (H1 & H2 & _).
  split; [|done]. apply (H1 0 1); [lia|reflexivity|reflexivity].
Defined.

(** C4 (as amended) for a ticket awaiting its first response. *)
Lemma poll_sequence_ends_once_witness :
  run here parse_object (init 0) [Create None "id"] = Some one_ticket
  ∧ slots one_ticket !! 0 = Some (mkSlot (mkTicket "id" 0) Fetching)
  ∧ is_Some (step here parse_object one_ticket (Respond 0 Rejected))
  ∧ List.length
      (filter (λ a, targets 0 a = true)
         [Respond 0 (Body ""); Tick 500; TimerFires 0]) ≤ 1201.
Proof.
  split; [reflexivity|]. split; [reflexivity|].
  destruct (poll_sequence_ends_once here parse_object
              0 [Create None "id"] one_ticket 0 (mkTicket "id" 0) Fetching
              eq_refl eq_refl) as (_ & _ & Hbound & Hnext & _).
  split; [by apply Hnext|]. by eapply Hbound.
Defined.

(** C6 with two tickets: a delivery to the first, seen from the second. *)
Lemma response_leaves_other_sequences_alone_witness :
  ∃ w1, step here parse_object two_tickets (Respond 0 (Body "{}")) = Some w1
    ∧ slots w1 !! 0 = Some (mkSlot (mkTicket "a" 0) (Finished Delivered))
    ∧ slots w1 !! 1 = Some (mkSlot (mkTicket "b" 100) Fetching)
    ∧ clock w1 = clock two_tickets.
Proof.
  eexists. split; [reflexivity|]. split; [reflexivity|].
  destruct (response_leaves_other_sequences_alone here parse_object
              two_tickets 0 1 (Body "{}")
              (mkSlot (mkTicket "b" 100) Fetching) _
              ltac:(discriminate) eq_refl eq_refl) as (H1 & H2 & _).
  by split.
Defined.

(** The world after a delivery to the one ticket. *)
Definition delivered_ticket : world (Payload := string) :=
  mkWorld 0 [mkSlot (mkTicket "id" 0) (Finished Delivered)]
    [mkEntry 0 0 (Fire "{}"); mkEntry 0 0 (HttpGet (fetch_uri here "id"))].

(** X23 on a map of two entries with reserved bytes in the values. *)
Lemma doCreateUri_renders_the_map_witness :
  query (doCreateUri here "/p" [("a", "x y"); ("b", "1&2=3")])
    = "a=x%20y&b=1%262%3D3"
  ∧ query_params (query (doCreateUri here "/p" [("a", "x y"); ("b", "1&2=3")]))
    = [("a", "x%20y"); ("b", "1%262%3D3")].
Proof.
  split; [reflexivity|].
  apply (doCreateUri_renders_the_map here "/p" [("a", "x y"); ("b", "1&2=3")]).
  - discriminate.
  - repeat constructor.
Defined.

(** X12 on the first request of a ticket. *)
Lemma requests_carry_their_ticket_witness :
  ∃ s, slots one_ticket !! 0 = Some s
     ∧ fetch_uri here "id" = fetch_uri here (requestId (tk s)).
Proof.
  destruct (requests_carry_their_ticket here parse_object
              0 [Create None "id"] one_ticket
              (mkEntry 0 0 (HttpGet (fetch_uri here "id")))
              (fetch_uri here "id") eq_refl ltac:(left) eq_refl)
    as (s & H1 & H2 & _).
  by exists s.
Defined.

(** X13 after a delivery: one event, fired once. *)
Lemma sequence_surfaces_what_its_phase_says_witness :
  run here parse_object (init 0) [Create None "id"; Respond 0 (Body "{}")]
    = Some delivered_ticket
  ∧ ∃ uri, surfaced_by 0 (log delivered_ticket) = [Fire uri].
Proof.
  split; [reflexivity|].
  apply (sequence_surfaces_what_its_phase_says here parse_object
           0 [Create None "id"; Respond 0 (Body "{}")] delivered_ticket
           0 (mkTicket "id" 0) (Finished Delivered) eq_refl eq_refl).
Defined.

(** X14 on the slow response: the oldest request is the one of [create]. *)
Lemma polling_starts_at_creation_witness :
  ∃ w, run here parse_object (init 0) slow_response = Some w
    ∧ last (requests_by 0 (log w)) = Some 0%Z.
Proof.
  eexists. split; [reflexivity|].
  apply (polling_starts_at_creation here parse_object
           0 slow_response _ 0 (mkTicket "id" 0) Fetching eq_refl eq_refl).
Defined.

(** X15 for a ticket awaiting its first response. *)
Lemma rejected_request_ends_polling_witness :
  ∃ w1, step here parse_object one_ticket (Respond 0 Rejected) = Some w1
    ∧ log w1 = mkEntry 0 0 UnhandledRejection :: log one_ticket
    ∧ slots w1 !! 0 = Some (mkSlot (mkTicket "id" 0) (Finished Failed)).
Proof.
  destruct (rejected_request_ends_polling here parse_object
              one_ticket 0 (mkTicket "id" 0) eq_refl)
    as (w1 & H1 & H2 & H3 & _).
  by exists w1.
Defined.

(** X16 for a ticket whose first response is empty: the timer runs after
    500 ms. *)
Lemma empty_body_polls_again_witness :
  run here parse_object one_ticket
    [Respond 0 (Body ""); Tick 500; TimerFires 0]
  = Some (mkWorld 500 (slots one_ticket)
            (mkEntry 500 0 (HttpGet (fetch_uri here "id"))
             :: mkEntry 0 0 (SetTimeout FETCH_INTERVAL) :: log one_ticket)).
Proof.
  apply (empty_body_polls_again here parse_object
           one_ticket 0 (mkTicket "id" 0) 500 eq_refl eq_refl).
Defined.

End UrlCallback.

(** ** TrustedDomainsContentProvider *)

Module TrustedDomains.

Inductive StorageScope := GLOBAL | WORKSPACE.

(** Modelled from the spec: the storage service (vs/platform/storage is not
    part of the sources).  The spec has the provider persist "into
    key/value storage", an "abstract key/value store": one finite map from
    keys to strings per scope, [get] giving [undefined] for a key never
    stored. *)
Record storage := mkStorage {
  global : gmap string string;
  workspace : gmap string string
}.

Definition storage_get (key : string) (scope : StorageScope) (st : storage)
    : option string :=
  match scope with
  | GLOBAL => global st !! key
  | WORKSPACE => workspace st !! key
  end.

Definition storage_store (key value : string) (scope : StorageScope)
    (st : storage) : storage :=
  match scope with
  | GLOBAL => mkStorage (<[key := value]> (global st)) (workspace st)
  | WORKSPACE => mkStorage (global st) (<[key := value]> (workspace st))
  end.

(** Modelled from the spec: [remove] and [store] of the same storage
    service.  The value handed to [store] may be [undefined] ([None]): a
    text is put under the key, and on [undefined] the service removes the
    entry of the key instead. *)
Definition storage_remove (key : string) (scope : StorageScope)
    (st : storage) : storage :=
  match scope with
  | GLOBAL => mkStorage (delete key (global st)) (workspace st)
  | WORKSPACE => mkStorage (global st) (delete key (workspace st))
  end.

Definition store (key : string) (text : option string) (scope : StorageScope)
    (st : storage) : storage :=
  match text with
  | Some text => storage_store key text scope st
  | None => storage_remove key scope st
  end.

Definition TRUSTED_DOMAINS_KEY : string := "http.linkProtectionTrustedDomains".

Section Provider.

(** The JSON values (null, booleans, numbers, strings, arrays, objects),
    with the array of strings among them.  [undefined] is not one of them:
    where it can occur the type is [option value]. *)
Context {value : Type}.
Variable array_of_strings : list string → value.

(** How a call that may throw ends: it throws, or it returns [undefined]
    ([Returns None]) or a value. *)
Inductive completion :=
| Throws
| Returns (result : option value).

(** [parse] of vs/base/common/json, [JSON.parse] ([None]: the call throws;
    it never returns [undefined]), [JSON.stringify(v)] and
    [JSON.stringify(v, null, 2)] on a value.  [JSON.stringify(undefined)]
    is [undefined]: on an [option value] it is [JSON_stringify <$> _]. *)
Variable parse : string → completion.
Variable JSON_parse : string → option value.
Variable JSON_stringify : value → string.
Variable JSON_stringify_indented : value → string.

(** [content.toString()] on the [Uint8Array] handed to [writeFile]. *)
Variable content_toString : list Byte.byte → string.

(** [productService.linkProtectionTrustedDomains] *)
Variable linkProtectionTrustedDomains : option (list string).

(** [Buffer.from(s, 'utf-8')] *)
Definition Buffer_from_utf8 (s : string) : list Byte.byte :=
  list_byte_of_string s.

Definition default_trustedDomains : value :=
  match linkProtectionTrustedDomains with
  | Some domains => array_of_strings domains
  | None => array_of_strings []
  end.

Definition readFile (st : storage) : list Byte.byte :=
  let trustedDomains := default_trustedDomains in
  let trustedDomains :=
    match storage_get TRUSTED_DOMAINS_KEY GLOBAL st with
    | Some trustedDomainsSrc =>
        if decide (trustedDomainsSrc = "") then trustedDomains
        else match JSON_parse trustedDomainsSrc with
             | Some parsed => parsed
             | None => trustedDomains
             end
    | None => trustedDomains
    end in
  let trustedDomainsContent := JSON_stringify_indented trustedDomains in
  Buffer_from_utf8 trustedDomainsContent.

(** [trustedDomainsd] starts as the empty array and keeps it only when
    [parse] throws; whatever [parse] returns, [undefined] included, is
    assigned to it, serialized and handed to [store]. *)
Definition writeFile (content : list Byte.byte) (st : storage) : storage :=
  let trustedDomainsd : option value :=
    match parse (content_toString content) with
    | Returns parsed => parsed
    | Throws => Some (array_of_strings [])
    end in
  store TRUSTED_DOMAINS_KEY (JSON_stringify <$> trustedDomainsd) GLOBAL st.

Definition TRUSTED_DOMAINS_SCHEMA : string := "trustedDomains".

(** The model service as [provideTextContent] uses it: [getModel] on the
    resource, and the call it then makes, [createModel] (with the language
    name given to [createByLanguageName] and the text given to
    [URI.parse]) or [updateModel]. *)
Context {model : Type}.
Variable getModel : Uri.URI → option model.

Inductive model_request :=
| CreateModel (content languageName uri : string)
| UpdateModel (m : model) (content : string).

Definition requested_content (q : model_request) : string :=
  match q with
  | CreateModel content _ _ => content
  | UpdateModel _ content => content
  end.

Definition provideTextContent (resource : Uri.URI) (st : storage)
    : model_request :=
  let trustedDomains := default_trustedDomains in
  let trustedDomains :=
    match storage_get TRUSTED_DOMAINS_KEY GLOBAL st with
    | Some trustedDomainsSrc =>
        if decide (trustedDomainsSrc = "") then trustedDomains
        else match JSON_parse trustedDomainsSrc with
             | Some parsed => parsed
             | None => trustedDomains
             end
    | None => trustedDomains
    end in
  let trustedDomainsContent := JSON_stringify_indented trustedDomains in
  match getModel resource with
  | None =>
      CreateModel trustedDomainsContent "jsonc"
        (TRUSTED_DOMAINS_SCHEMA +:+ ":config")
  | Some m => UpdateModel m trustedDomainsContent
  end.

(** *** Properties *)

Lemma storage_get_store key text scope st :
  storage_get key scope (storage_store key text scope st) = Some text.
Proof. destruct scope; simpl; apply lookup_insert_eq. Qed.

Lemma storage_get_store_ne key key' text scope scope' st :
  (key', scope') ≠ (key, scope) →
  storage_get key' scope' (storage_store key text scope st)
  = storage_get key' scope' st.
Proof.
  intros Hne. destruct scope, scope'; simpl; try done;
    apply lookup_insert_ne; congruence.
Qed.

Lemma storage_get_remove key scope st :
  storage_get key scope (storage_remove key scope st) = None.
Proof. destruct scope; simpl; apply lookup_delete_eq. Qed.

Lemma storage_get_remove_ne key key' scope scope' st :
  (key', scope') ≠ (key, scope) →
  storage_get key' scope' (storage_remove key scope st)
  = storage_get key' scope' st.
Proof.
  intros Hne. destruct scope, scope'; simpl; try done;
    apply lookup_delete_ne; congruence.
Qed.

Lemma storage_get_after_store key text scope st :
  storage_get key scope (store key text scope st) = text.
Proof.
  destruct text; [apply storage_get_store|apply storage_get_remove].
Qed.

Lemma storage_get_after_store_ne key key' text scope scope' st :
  (key', scope') ≠ (key, scope) →
  storage_get key' scope' (store key text scope st)
  = storage_get key' scope' st.
Proof.
  destruct text; [apply storage_get_store_ne|apply storage_get_remove_ne].
Qed.

Lemma default_trustedDomains_unfold :
  default_trustedDomains
  = array_of_strings (default [] linkProtectionTrustedDomains).
Proof.
  unfold default_trustedDomains. by destruct linkProtectionTrustedDomains.
Qed.

Lemma readFile_stored st src v :
  storage_get TRUSTED_DOMAINS_KEY GLOBAL st = Some src →
  src ≠ "" → JSON_parse src = Some v →
  readFile st = Buffer_from_utf8 (JSON_stringify_indented v).
Proof. intros Hs Hne Hp. unfold readFile. rewrite Hs, decide_False, Hp; done. Qed.

Lemma readFile_default st :
  match storage_get TRUSTED_DOMAINS_KEY GLOBAL st with
  | Some src => src = "" ∨ JSON_parse src = None
  | None => True
  end →
  readFile st = Buffer_from_utf8 (JSON_stringify_indented default_trustedDomains).
Proof.
  unfold readFile. destruct (storage_get _ _ st) as [src|]; [|done].
  intros [->|Hp]; [done|]. case_decide; [done|]. by rewrite Hp.
Qed.

(** C8: what [writeFile] leaves under [http.linkProtectionTrustedDomains]
    in the global scope, touching nothing else: the serialization of the
    value the content parses to; the serialization of the empty list only
    when [parse] throws; and no entry at all when [parse] returns
    [undefined], as the parser of vs/base/common/json does on the empty
    text: the entry is removed, and the [readFile] that follows returns the
    product's default domains (the empty list when the product has none),
    not a stored empty list.  [readFile] returns the UTF-8 bytes of the
    indented serialization of what the stored text parses to, hence of the
    value just written when one was stored and survives the round trip,
    and of the product's default domains when nothing, the empty text or
    text that does not parse is stored. *)
Theorem writeFile_then_readFile content st :
  let st' := writeFile content st in
  let defaults := array_of_strings (default [] linkProtectionTrustedDomains) in
  storage_get TRUSTED_DOMAINS_KEY GLOBAL st'
  = match parse (content_toString content) with
    | Returns (Some parsed) => Some (JSON_stringify parsed)
    | Returns None => None
    | Throws => Some (JSON_stringify (array_of_strings []))
    end
  ∧ (∀ key scope, (key, scope) ≠ (TRUSTED_DOMAINS_KEY, GLOBAL) →
       storage_get key scope st' = storage_get key scope st)
  ∧ (parse (content_toString content) = Returns None →
       storage_get TRUSTED_DOMAINS_KEY GLOBAL st' = None
       ∧ readFile st'
         = list_byte_of_string (JSON_stringify_indented defaults))
  ∧ (∀ written,
       parse (content_toString content) = Returns (Some written)
       ∨ parse (content_toString content) = Throws
         ∧ written = array_of_strings [] →
       JSON_stringify written ≠ "" →
       JSON_parse (JSON_stringify written) = Some written →
       readFile st' = list_byte_of_string (JSON_stringify_indented written))
  ∧ (∀ st0 src v, storage_get TRUSTED_DOMAINS_KEY GLOBAL st0 = Some src →
       src ≠ "" → JSON_parse src = Some v →
       readFile st0 = list_byte_of_string (JSON_stringify_indented v))
  ∧ (∀ st0,
       match storage_get TRUSTED_DOMAINS_KEY GLOBAL st0 with
       | Some src => src = "" ∨ JSON_parse src = None
       | None => True
       end →
       readFile st0 = list_byte_of_string (JSON_stringify_indented defaults)).
Proof.
  cbv zeta. rewrite <- default_trustedDomains_unfold.
  assert (Hget : storage_get TRUSTED_DOMAINS_KEY GLOBAL (writeFile content st)
                 = match parse (content_toString content) with
                   | Returns (Some parsed) => Some (JSON_stringify parsed)
                   | Returns None => None
                   | Throws => Some (JSON_stringify (array_of_strings []))
                   end).
  { unfold writeFile. rewrite storage_get_after_store.
    by destruct (parse (content_toString content)) as [|[parsed|]]. }
  split_and!.
  - exact Hget.
  - intros key scope Hne. unfold writeFile.
    by apply storage_get_after_store_ne.
  - intros Hp. rewrite Hp in Hget. split; [exact Hget|].
    apply readFile_default. by rewrite Hget.
  - intros written Hp Hne Hrt.
    apply (readFile_stored _ (JSON_stringify written)); [|done..].
    rewrite Hget. by destruct Hp as [->|[-> ->]].
  - apply readFile_stored.
  - apply readFile_default.
Qed.

(** X17: a second [writeFile] replaces the first, leaving the storage as
    it alone would have, whether each of the two stores a text or removes
    the entry; and [readFile] looks at nothing but the global entry of
    [http.linkProtectionTrustedDomains]: storing or removing under another
    key or in the workspace scope does not change what it returns. *)
Theorem writeFile_last_write_wins content1 content2 st :
  writeFile content2 (writeFile content1 st) = writeFile content2 st
  ∧ readFile (writeFile content2 (writeFile content1 st))
    = readFile (writeFile content2 st)
  ∧ (∀ key text scope, (key, scope) ≠ (TRUSTED_DOMAINS_KEY, GLOBAL) →
       readFile (storage_store key text scope st) = readFile st)
  ∧ (∀ key text scope, (key, scope) ≠ (TRUSTED_DOMAINS_KEY, GLOBAL) →
       readFile (store key text scope st) = readFile st).
Proof.
  assert (Hww : writeFile content2 (writeFile content1 st)
                = writeFile content2 st).
  { unfold writeFile.
    destruct (parse (content_toString content1)) as [|[parsed1|]],
             (parse (content_toString content2)) as [|[parsed2|]];
      cbn [fmap option_fmap option_map store storage_store storage_remove
           global workspace];
      f_equal;
      first [apply insert_insert_eq | apply insert_delete_eq
            | apply delete_insert_eq | apply delete_delete_eq]. }
  split_and!; [done|by rewrite Hww|..].
  - intros key text scope Hne. unfold readFile.
    by rewrite storage_get_store_ne.
  - intros key text scope Hne. unfold readFile.
    by rewrite storage_get_after_store_ne.
Qed.

(** X18: the text [provideTextContent] hands to the model service is the
    text whose UTF-8 bytes [readFile] returns; it updates the model of the
    resource when there is one and otherwise creates a [jsonc] model at
    [trustedDomains:config]. *)
Theorem provideTextContent_agrees_with_readFile resource st :
  let request := provideTextContent resource st in
  readFile st = Buffer_from_utf8 (requested_content request)
  ∧ string_of_list_byte (readFile st) = requested_content request
  ∧ match getModel resource with
    | Some m => request = UpdateModel m (requested_content request)
    | None => request = CreateModel (requested_content request) "jsonc"
                          "trustedDomains:config"
    end.
Proof.
  cbv zeta. unfold provideTextContent, readFile, Buffer_from_utf8.
  rewrite string_of_list_byte_of_string.
  by destruct (getModel resource).
Qed.

End Provider.

(** *** The provider on a few texts *)

(** Stand-ins for the JSON functions on the texts of the examples: the
    values are the arrays of strings and the empty object; [parse] returns
    [undefined] on the empty text and on [oops], and the empty object on
    [{oops], as the fault-tolerant parser of vs/base/common/json does;
    [JSON.parse] throws on the three. *)
Inductive json :=
| JArray (items : list string)
| JEmptyObject.

Definition quoted (s : string) : string :=
  String "034" (s +:+ String "034" "").

Fixpoint joined (separator : string) (items : list string) : string :=
  match items with
  | [] => ""
  | [item] => item
  | item :: rest => item +:+ separator +:+ joined separator rest
  end.

Definition stringify (v : json) : string :=
  match v with
  | JArray items => "[" +:+ joined "," (quoted <$> items) +:+ "]"
  | JEmptyObject => "{}"
  end.

Definition stringify_indented (v : json) : string :=
  match v with
  | JArray [] => "[]"
  | JArray items =>
      "[" +:+ String "010" "  "
      +:+ joined ("," +:+ String "010" "  ") (quoted <$> items)
      +:+ String "010" "]"
  | JEmptyObject => "{}"
  end.

Definition known_values : list json :=
  [JArray []; JArray ["a.example"]; JEmptyObject].

Definition strict_parse (s : string) : option json :=
  head (filter (λ v, stringify v = s) known_values).

Definition tolerant_parse (s : string) : completion :=
  if decide (s = "{oops") then Returns (Some JEmptyObject)
  else Returns (strict_parse s).

Definition a_example : string := stringify (JArray ["a.example"]).

Example readFile_after_writeFile :
  readFile JArray strict_parse stringify_indented (Some ["default.example"])
    (writeFile JArray tolerant_parse stringify string_of_list_byte
       (list_byte_of_string a_example) (mkStorage ∅ ∅))
  = list_byte_of_string (stringify_indented (JArray ["a.example"])).
Proof. vm_compute. reflexivity. Qed.

Example readFile_nothing_stored :
  readFile JArray strict_parse stringify_indented (Some ["default.example"])
    (mkStorage ∅ ∅)
  = list_byte_of_string (stringify_indented (JArray ["default.example"])).
Proof. vm_compute. reflexivity. Qed.

(** Writing the empty content over a stored list: the entry is removed,
    and the product's defaults are read, not the empty list. *)
Example writeFile_empty_content :
  let st := mkStorage {[ TRUSTED_DOMAINS_KEY := a_example ]} ∅ in
  let st' := writeFile JArray tolerant_parse stringify string_of_list_byte
               [] st in
  storage_get TRUSTED_DOMAINS_KEY GLOBAL st = Some a_example
  ∧ storage_get TRUSTED_DOMAINS_KEY GLOBAL st' = None
  ∧ storage_get TRUSTED_DOMAINS_KEY GLOBAL st' ≠ Some (stringify (JArray []))
  ∧ readFile JArray strict_parse stringify_indented
      (Some ["default.example"]) st'
    = list_byte_of_string (stringify_indented (JArray ["default.example"]))
  ∧ readFile JArray strict_parse stringify_indented
      (Some ["default.example"]) st'
    ≠ list_byte_of_string (stringify_indented (JArray [])).
Proof. vm_compute. split_and!; done. Qed.

Example writeFile_unparsable :
  storage_get TRUSTED_DOMAINS_KEY GLOBAL
    (writeFile JArray tolerant_parse stringify string_of_list_byte
       (list_byte_of_string "{oops") (mkStorage ∅ ∅))
  = Some "{}"
  ∧ storage_get TRUSTED_DOMAINS_KEY GLOBAL
      (writeFile JArray tolerant_parse stringify string_of_list_byte
         (list_byte_of_string "oops") (mkStorage ∅ ∅))
    = None.
Proof. vm_compute. split; reflexivity. Qed.

End TrustedDomains.

(** ** getConfirmMessage *)

Module Dialogs.

Definition MAX_CONFIRM_FILES : nat := 10.

Definition LF : string := String (ascii_of_nat 10) "".

(** [Array.prototype.join] *)
Fixpoint join (sep : string) (parts : list string) : string :=
  match parts with
  | [] => ""
  | [part] => part
  | part :: rest => part +:+ sep +:+ join sep rest
  end.

Section Message.

Context {URI : Type}.

(** [basename] of vs/base/common/resources. *)
Variable basename : URI → string.

(** [localize(key, message, ...args)] of vs/nls, the arguments being
    numbers here. *)
Variable localize : string → string → list nat → string.

(** The [message] array before it is joined. *)
Definition getConfirmMessage_lines (start : string)
    (resourcesToConfirm : list URI) : list string :=
  let message := [start] in
  let message := message ++ [""] in
  let message :=
    message ++ (basename <$> take MAX_CONFIRM_FILES resourcesToConfirm) in
  let message :=
    if decide (MAX_CONFIRM_FILES < List.length resourcesToConfirm) then
      if decide (List.length resourcesToConfirm - MAX_CONFIRM_FILES = 1) then
        message ++ [localize "moreFile" "...1 additional file not shown" []]
      else
        message ++ [localize "moreFiles" "...{0} additional files not shown"
                      [List.length resourcesToConfirm - MAX_CONFIRM_FILES]]
    else message in
  message ++ [""].

Definition getConfirmMessage (start : string) (resourcesToConfirm : list URI)
    : string :=
  join LF (getConfirmMessage_lines start resourcesToConfirm).

(** The line that reports [n] files left out, as the claim words it: none
    for no file, the singular wording for one, the count otherwise. *)
Definition not_shown (n : nat) : list string :=
  match n with
  | 0 => []
  | 1 => [localize "moreFile" "...1 additional file not shown" []]
  | _ => [localize "moreFiles" "...{0} additional files not shown" [n]]
  end.

(** C9: the message is the start line, an empty line, the base names of the
    first ten resources (of all of them when there are at most ten), then,
    only when more than ten resources were given, one line reporting how
    many were left out, and a final empty line, joined by line feeds. *)
Theorem getConfirmMessage_truncates start (resourcesToConfirm : list URI) :
  let shown := take MAX_CONFIRM_FILES resourcesToConfirm in
  let omitted := drop MAX_CONFIRM_FILES resourcesToConfirm in
  getConfirmMessage start resourcesToConfirm
  = join LF ([start; ""] ++ (basename <$> shown)
               ++ not_shown (List.length omitted) ++ [""])
  ∧ List.length shown = List.length resourcesToConfirm `min` MAX_CONFIRM_FILES
  ∧ List.length omitted = List.length resourcesToConfirm - MAX_CONFIRM_FILES
  ∧ (List.length resourcesToConfirm ≤ MAX_CONFIRM_FILES →
       shown = resourcesToConfirm ∧ not_shown (List.length omitted) = [])
  ∧ (MAX_CONFIRM_FILES < List.length resourcesToConfirm →
       ∃ line, not_shown (List.length omitted) = [line]).
Proof.
  cbv zeta. rewrite length_take, length_drop. split_and!.
  - unfold getConfirmMessage, getConfirmMessage_lines. f_equal.
    case_decide as Hlen.
    + case_decide as Hone.
      * rewrite Hone. simpl. by rewrite <- ?app_assoc.
      * destruct (List.length resourcesToConfirm - MAX_CONFIRM_FILES)
          as [|[|n]] eqn:E; [lia|done|]. simpl. by rewrite <- ?app_assoc.
    + replace (List.length resourcesToConfirm - MAX_CONFIRM_FILES) with 0
        by lia. simpl. by rewrite <- ?app_assoc.
  - lia.
  - done.
  - intros Hle. split; [by apply take_ge|].
    by replace (List.length resourcesToConfirm - MAX_CONFIRM_FILES) with 0
      by lia.
  - intros Hlt.
    destruct (List.length resourcesToConfirm - MAX_CONFIRM_FILES)
      as [|[|n]] eqn:E; [lia| |]; simpl; eauto.
Qed.

Lemma getConfirmMessage_lines_eq start (rs : list URI) :
  getConfirmMessage_lines start rs
  = start :: "" :: (basename <$> take MAX_CONFIRM_FILES rs)
      ++ not_shown (List.length rs - MAX_CONFIRM_FILES) ++ [""].
Proof.
  unfold getConfirmMessage_lines.
  case_decide as Hlen.
  - case_decide as Hone.
    + rewrite Hone. simpl. by rewrite <- ?app_assoc.
    + destruct (List.length rs - MAX_CONFIRM_FILES) as [|[|n]] eqn:E;
        [lia|done|]. simpl. by rewrite <- ?app_assoc.
  - replace (List.length rs - MAX_CONFIRM_FILES) with 0 by lia.
    simpl. by rewrite <- ?app_assoc.
Qed.

(** X19: the message has the start line first, then an empty line, then
    the base name of the [i]-th resource on line [2 + i] for the first ten
    resources, and an empty line last; it has
    [3 + min n 10] lines for [n] resources, one more when [n] exceeds ten,
    so never more than 14; for no resource it is the start line and two
    line feeds. *)
Theorem getConfirmMessage_lines_shape start (rs : list URI) :
  let lines := getConfirmMessage_lines start rs in
  List.length lines
    = 3 + (List.length rs `min` MAX_CONFIRM_FILES)
      + (if decide (MAX_CONFIRM_FILES < List.length rs) then 1 else 0)
  ∧ List.length lines ≤ 14
  ∧ lines !! 0 = Some start
  ∧ lines !! 1 = Some ""
  ∧ last lines = Some ""
  ∧ (∀ i r, i < MAX_CONFIRM_FILES → rs !! i = Some r →
       lines !! (2 + i) = Some (basename r))
  ∧ getConfirmMessage start [] = start +:+ LF +:+ LF.
Proof.
  cbv zeta. rewrite getConfirmMessage_lines_eq.
  assert (Hmore : List.length (not_shown (List.length rs - MAX_CONFIRM_FILES))
                  = if decide (MAX_CONFIRM_FILES < List.length rs)
                    then 1 else 0).
  { case_decide.
    - by destruct (List.length rs - MAX_CONFIRM_FILES) as [|[|n]] eqn:E;
        [lia| |].
    - by replace (List.length rs - MAX_CONFIRM_FILES) with 0 by lia. }
  assert (Hlen : List.length
                   (start :: "" :: (basename <$> take MAX_CONFIRM_FILES rs)
                      ++ not_shown (List.length rs - MAX_CONFIRM_FILES) ++ [""])
                 = 3 + (List.length rs `min` MAX_CONFIRM_FILES)
                   + (if decide (MAX_CONFIRM_FILES < List.length rs)
                      then 1 else 0)).
  { cbn [List.length].
    rewrite !length_app, length_fmap, length_take, Hmore. cbn [List.length].
    unfold MAX_CONFIRM_FILES. case_decide; lia. }
  split_and!; try done.
  - rewrite Hlen. clear. unfold MAX_CONFIRM_FILES. case_decide; lia.
  - change (start :: "" :: ?l) with ([start; ""] ++ l).
    by rewrite !app_assoc, last_snoc.
  - intros i r Hi Hr. simpl. rewrite lookup_app_l.
    + by rewrite list_lookup_fmap, lookup_take_lt, Hr.
    + rewrite length_fmap, length_take. apply lookup_lt_Some in Hr. lia.
Qed.

End Message.

(** *** In the default locale *)

(** [localize] when no translation is loaded: the message with [{0}]
    replaced by the first argument. *)
Fixpoint format (message : string) (args : list nat) : string :=
  match message with
  | String "{" (String "0" (String "}" rest)) =>
      match args with
      | n :: _ => pretty n +:+ format rest args
      | [] => "{0}" +:+ format rest args
      end
  | String c rest => String c (format rest args)
  | "" => ""
  end.

Definition localize_default (key message : string) (args : list nat) : string :=
  format message args.

Definition files (n : nat) : list string :=
  (λ k, "f" +:+ pretty k) <$> seq 1 n.

Example getConfirmMessage_one_file :
  getConfirmMessage id localize_default "Delete?" ["a.txt"]
  = "Delete?" +:+ LF +:+ LF +:+ "a.txt" +:+ LF.
Proof. reflexivity. Qed.

Example getConfirmMessage_ten_files :
  getConfirmMessage_lines id localize_default "Delete?" (files 10)
  = ["Delete?"; ""; "f1"; "f2"; "f3"; "f4"; "f5"; "f6"; "f7"; "f8"; "f9";
     "f10"; ""].
Proof. vm_compute. reflexivity. Qed.

Example getConfirmMessage_eleven_files :
  getConfirmMessage_lines id localize_default "Delete?" (files 11)
  = ["Delete?"; ""; "f1"; "f2"; "f3"; "f4"; "f5"; "f6"; "f7"; "f8"; "f9";
     "f10"; "...1 additional file not shown"; ""].
Proof. vm_compute. reflexivity. Qed.

Example getConfirmMessage_fifteen_files :
  getConfirmMessage_lines id localize_default "Delete?" (files 15)
  = ["Delete?"; ""; "f1"; "f2"; "f3"; "f4"; "f5"; "f6"; "f7"; "f8"; "f9";
     "f10"; "...5 additional files not shown"; ""].
Proof. vm_compute. reflexivity. Qed.

End Dialogs.

(** ** EditorScrollbar: undoing a scroll the browser made on its own *)

Module EditorScrollbar.

Section Reveal.

(** JavaScript numbers with [+], the number [0] and truthiness. *)
Context {number : Type}.
Variable add : number → number → number.
Variable zero : number.
Variable truthy : number → bool.

(** The scroll offsets of a DOM node. *)
Record HTMLElement := mkElement {
  scrollTop : number;
  scrollLeft : number
}.

Record INewScrollPosition := mkPosition {
  new_scrollLeft : option number;
  new_scrollTop : option number
}.

(** [viewLayout.getCurrentScrollTop()] and [getCurrentScrollLeft()]. *)
Record viewLayout := mkLayout {
  getCurrentScrollTop : number;
  getCurrentScrollLeft : number
}.

(** [onBrowserDesperateReveal]: the position handed to
    [setScrollPositionNow], and the DOM node afterwards. *)
Definition onBrowserDesperateReveal (layout : viewLayout) (domNode : HTMLElement)
    (lookAtScrollTop lookAtScrollLeft : bool)
    : INewScrollPosition * HTMLElement :=
  let '(newTop, domNode1) :=
    if lookAtScrollTop then
      let deltaTop := scrollTop domNode in
      if truthy deltaTop then
        (Some (add (getCurrentScrollTop layout) deltaTop),
         mkElement zero (scrollLeft domNode))
      else (None, domNode)
    else (None, domNode) in
  let '(newLeft, domNode2) :=
    if lookAtScrollLeft then
      let deltaLeft := scrollLeft domNode1 in
      if truthy deltaLeft then
        (Some (add (getCurrentScrollLeft layout) deltaLeft),
         mkElement (scrollTop domNode1) zero)
      else (None, domNode1)
    else (None, domNode1) in
  (mkPosition newLeft newTop, domNode2).

(** The four nodes the constructor listens on for [scroll]. *)
Inductive listened :=
| ViewDomNode | LinesContent | OverflowGuardDomNode | ScrollbarDomNode.

Definition scroll_listener (which : listened) (layout : viewLayout)
    (domNode : HTMLElement) : INewScrollPosition * HTMLElement :=
  onBrowserDesperateReveal layout domNode true
    (match which with ViewDomNode => true | _ => false end).

(** X20: the handler moves the offset the browser put on the node into the
    position it requests (current plus the offset) and zeroes it on the
    node; an offset it does not look at, or one that is already zero, is
    neither requested nor touched; and when it runs again on the node it
    requests nothing and changes nothing. *)
Theorem onBrowserDesperateReveal_transfers_the_offset
    layout domNode lookTop lookLeft :
  truthy zero = false →
  let r := onBrowserDesperateReveal layout domNode lookTop lookLeft in
  new_scrollTop r.1
    = (if lookTop && truthy (scrollTop domNode)
       then Some (add (getCurrentScrollTop layout) (scrollTop domNode))
       else None)
  ∧ new_scrollLeft r.1
    = (if lookLeft && truthy (scrollLeft domNode)
       then Some (add (getCurrentScrollLeft layout) (scrollLeft domNode))
       else None)
  ∧ scrollTop r.2
    = (if lookTop && truthy (scrollTop domNode) then zero
       else scrollTop domNode)
  ∧ scrollLeft r.2
    = (if lookLeft && truthy (scrollLeft domNode) then zero
       else scrollLeft domNode)
  ∧ (lookTop = true → truthy (scrollTop r.2) = false)
  ∧ (lookLeft = true → truthy (scrollLeft r.2) = false)
  ∧ ∀ layout', onBrowserDesperateReveal layout' r.2 lookTop lookLeft
               = (mkPosition None None, r.2).
Proof.
  intros Hzero. cbv zeta. unfold onBrowserDesperateReveal.
  destruct domNode as [t l].
  destruct lookTop, lookLeft; simpl;
    destruct (truthy t) eqn:Htop, (truthy l) eqn:Hleft; simpl;
    rewrite ?Hzero, ?Htop, ?Hleft; repeat split; intros;
    repeat (progress (simpl; rewrite ?Hzero, ?Htop, ?Hleft)); done.
Qed.

(** X21: only the listener on the view node looks at the horizontal
    offset: the other three never request a horizontal position and leave
    the node's [scrollLeft] alone; all four look at the vertical one. *)
Theorem scroll_listeners_look_at which layout domNode :
  truthy zero = false →
  let r := scroll_listener which layout domNode in
  truthy (scrollTop r.2) = false
  ∧ (which ≠ ViewDomNode →
       new_scrollLeft r.1 = None ∧ scrollLeft r.2 = scrollLeft domNode)
  ∧ (which = ViewDomNode → truthy (scrollLeft r.2) = false).
Proof.
  intros Hzero. cbv zeta. unfold scroll_listener, onBrowserDesperateReveal.
  destruct domNode as [t l].
  destruct which; simpl;
    destruct (truthy t) eqn:Htop, (truthy l) eqn:Hleft; simpl;
    rewrite ?Hzero, ?Htop, ?Hleft; by repeat split.
Qed.

End Reveal.

(** *** With integer offsets *)

Definition nonzero (z : Z) : bool := negb (z =? 0)%Z.

(** X20 when the browser has scrolled the view node by 30 down and 4
    right, the layout standing at 100 and 0. *)
Lemma onBrowserDesperateReveal_transfers_the_offset_witness :
  onBrowserDesperateReveal Z.add 0%Z nonzero
    (mkLayout 100%Z 0%Z) (mkElement 30%Z 4%Z) true true
  = (mkPosition (Some 4%Z) (Some 130%Z), mkElement 0%Z 0%Z)
  ∧ ∀ layout', onBrowserDesperateReveal Z.add 0%Z nonzero
                 layout' (mkElement 0%Z 0%Z) true true
               = (mkPosition None None, mkElement 0%Z 0%Z).
Proof.
  split; [reflexivity|].
  apply (onBrowserDesperateReveal_transfers_the_offset Z.add 0%Z nonzero
           (mkLayout 100%Z 0%Z) (mkElement 30%Z 4%Z) true true eq_refl).
Defined.

(** X21 on the lines content node with the same offsets. *)
Lemma scroll_listeners_look_at_witness :
  nonzero (scrollTop
             (scroll_listener Z.add 0%Z nonzero LinesContent
                (mkLayout 100%Z 0%Z) (mkElement 30%Z 4%Z)).2) = false.
Proof.
  apply (scroll_listeners_look_at Z.add 0%Z nonzero LinesContent
           (mkLayout 100%Z 0%Z) (mkElement 30%Z 4%Z) eq_refl).
Defined.

End EditorScrollbar.
